(** * ThirdEye API (app.py): the speech summariser, the announcement state
      machine and the detection post-processing, embedded in Rocq.

    Conventions of the embedding.
    - Python [str] values are Rocq [string]s (ASCII text, which is what the
      class-name table and the formatted detection strings hold).
    - Python [int] values are [Z]; Python [float] values are exact rationals
      [Q]: a decimal literal such as 0.37 stands for 37/100, and arithmetic
      and comparisons are the exact ones.  Where the code calls [int()] or
      [float()] on a number that can be NaN or infinite (the box entries of
      a detector row, the score read back from a detection string) the
      number is a [pyfloat], and the call raises as Python's does.
    - A Python [set] of tuples is a [gset (string * string)]; a [Counter] is
      an association list in insertion order, because the order of
      [Counter.items()] decides the order of the words in the sentence.
    - A function that can raise returns a [result]. *)

From stdpp Require Import gmap strings list.
From Stdlib Require Import ZArith QArith Lqa String Ascii DecimalString.
From Equations Require Import Equations.

Close Scope Q_scope.
Open Scope string_scope.

(** ** Exceptions *)

Inductive exception : Type :=
| IndexError
| ValueError
| OverflowError.

Inductive result (A : Type) : Type :=
| Return (a : A)
| Raise (e : exception).
Arguments Return {A} a.
Arguments Raise {A} e.

Definition bind {A B : Type} (r : result A) (k : A -> result B) : result B :=
  match r with
  | Return a => k a
  | Raise e => Raise e
  end.

Notation "'let!' x ':=' r 'in' k" := (bind r (fun x => k))
  (at level 10, x name, r at level 100, k at level 200).

(** ** The Python string operations the program uses *)

Module Py.

(** [s.startswith(p)] *)
Definition startswith (s p : string) : bool := String.prefix p s.

(** [s.endswith(suf)]: some suffix of [s] is [suf]. *)
Fixpoint endswith (s suf : string) : bool :=
  String.eqb s suf ||
  match s with
  | EmptyString => false
  | String _ s' => endswith s' suf
  end.

(** [sub in s] *)
Fixpoint contains (sub s : string) : bool :=
  String.prefix sub s ||
  match s with
  | EmptyString => false
  | String _ s' => contains sub s'
  end.

(** [c in "aeiou"] for a one-character string [c]. *)
Definition in_aeiou (c : ascii) : bool :=
  contains (String c EmptyString) "aeiou".

(** [c.lower()] on one ASCII character. *)
Definition lower_char (c : ascii) : ascii :=
  let n := nat_of_ascii c in
  if (65 <=? n)%nat && (n <=? 90)%nat then ascii_of_nat (n + 32) else c.

(** [s.lower()] *)
Fixpoint lower (s : string) : string :=
  match s with
  | EmptyString => EmptyString
  | String c s' => String (lower_char c) (lower s')
  end.

(** [s[0]] *)
Definition first (s : string) : result ascii :=
  match s with
  | EmptyString => Raise IndexError
  | String c _ => Return c
  end.

(** [s[-2]] *)
Fixpoint second_last (s : string) : result ascii :=
  match s with
  | EmptyString => Raise IndexError
  | String c EmptyString => Raise IndexError
  | String c (String _ EmptyString) => Return c
  | String _ s' => second_last s'
  end.

(** [s[:-1]] *)
Fixpoint drop_last (s : string) : string :=
  match s with
  | EmptyString => EmptyString
  | String c EmptyString => EmptyString
  | String c s' => String c (drop_last s')
  end.

(** [str(n)] for an integer. *)
Definition str_int (n : Z) : string := NilZero.string_of_int (Z.to_int n).

(** The characters [str.strip()] removes. *)
Definition isspace (c : ascii) : bool :=
  let n := nat_of_ascii c in
  ((9 <=? n)%nat && (n <=? 13)%nat) || ((28 <=? n)%nat && (n <=? 32)%nat).

Fixpoint lstrip_by (p : ascii -> bool) (s : string) : string :=
  match s with
  | EmptyString => EmptyString
  | String c s' => if p c then lstrip_by p s' else s
  end.

Fixpoint rstrip_by (p : ascii -> bool) (s : string) : string :=
  match s with
  | EmptyString => EmptyString
  | String c s' =>
      match rstrip_by p s' with
      | EmptyString => if p c then EmptyString else String c EmptyString
      | r => String c r
      end
  end.

(** [s.strip()] *)
Definition strip (s : string) : string := rstrip_by isspace (lstrip_by isspace s).

(** [s.rstrip(c)] for a one-character argument. *)
Definition rstrip_char (c : ascii) (s : string) : string := rstrip_by (Ascii.eqb c) s.

(** [s[n:]] *)
Fixpoint drop (n : nat) (s : string) : string :=
  match n, s with
  | O, _ => s
  | S n', String _ s' => drop n' s'
  | S _, EmptyString => EmptyString
  end.

(** [a, b = s.split(sep, 1)]: the text before and after the leftmost
    [sep]; the unpacking raises ValueError when [sep] does not occur. *)
Fixpoint split_once (sep s : string) : result (string * string) :=
  if String.prefix sep s then Return (EmptyString, drop (String.length sep) s)
  else match s with
       | EmptyString => Raise ValueError
       | String c s' =>
           match split_once sep s' with
           | Return (a, b) => Return (String c a, b)
           | Raise e => Raise e
           end
       end.

(** [s.split(',')[0]] *)
Fixpoint before_comma (s : string) : string :=
  match s with
  | EmptyString => EmptyString
  | String c s' => if Ascii.eqb c "," then EmptyString else String c (before_comma s')
  end.

(** [sep.join(items)] *)
Fixpoint join (sep : string) (items : list string) : string :=
  match items with
  | [] => EmptyString
  | [x] => x
  | x :: rest => x ++ sep ++ join sep rest
  end.

End Py.

(** ** natural_join and format_object_with_count *)

Definition natural_join (items_list : list string) : string :=
  match items_list with
  | [] => EmptyString
  | [a] => a
  | [a; b] => a ++ " and " ++ b
  | _ => Py.join ", " (removelast items_list) ++ ", and " ++ List.last items_list EmptyString
  end.

Definition format_object_with_count (name : string) (count : Z) : result string :=
  let! plural_name :=
    (if Py.endswith name "s" || Py.endswith name "sh" || Py.endswith name "ch"
        || Py.endswith name "x" || Py.endswith name "z"
     then Return (name ++ "es")
     else if Py.endswith name "y"
     then let! c := Py.second_last name in
          if negb (Py.in_aeiou c) then Return (Py.drop_last name ++ "ies")
          else Return (name ++ "s")
     else Return (name ++ "s")) in
  if (count =? 1)%Z then
    let! c := Py.first name in
    if Py.in_aeiou (Py.lower_char c) then Return ("an " ++ name) else Return ("a " ++ name)
  else if (count =? 2)%Z then Return ("two " ++ plural_name)
  else if (count =? 3)%Z then Return ("three " ++ plural_name)
  else Return (Py.str_int count ++ " " ++ plural_name).

(** ** float(): reading a score back from text

    [float(s)] accepts, between optional blanks, an optional sign followed
    by [inf], [infinity], [nan] (in any case) or a decimal number with an
    optional fraction and exponent; digits may be separated by single
    underscores.  Anything else raises ValueError.  A finite literal is
    given its exact rational value. *)

Inductive pyfloat : Type :=
| Finite (q : Q)
| Infinite (negative : bool)
| NaN.

Module Float.

Definition is_digit (c : ascii) : bool :=
  let n := nat_of_ascii c in (48 <=? n)%nat && (n <=? 57)%nat.

Definition digit_value (c : ascii) : Z := Z.of_nat (nat_of_ascii c) - 48.

(** Reads [digit (["_"] digit)*] once its first digit has been seen:
    the value so far, the number of digits so far, the text left. *)
Fixpoint digits_loop (l : list ascii) (acc : Z) (n : nat) : Z * nat * list ascii :=
  match l with
  | [] => (acc, n, [])
  | c :: l' =>
      if is_digit c then digits_loop l' (10 * acc + digit_value c)%Z (S n)
      else if Ascii.eqb c "_" then
        match l' with
        | d :: l'' =>
            if is_digit d then digits_loop l'' (10 * acc + digit_value d)%Z (S n)
            else (acc, n, l)
        | [] => (acc, n, l)
        end
      else (acc, n, l)
  end.

Definition digitpart (l : list ascii) : option (Z * nat * list ascii) :=
  match l with
  | c :: _ => if is_digit c then Some (digits_loop l 0%Z 0%nat) else None
  | [] => None
  end.

(** [number ::= [digitpart] "." digitpart | digitpart ["."]]: the
    numerator, the number of fraction digits, the text left. *)
Definition number (l : list ascii) : option (Z * nat * list ascii) :=
  match digitpart l with
  | Some (ip, _, rest) =>
      match rest with
      | "."%char :: r1 =>
          match digitpart r1 with
          | Some (fp, k, r2) => Some ((ip * 10 ^ Z.of_nat k + fp)%Z, k, r2)
          | None => Some (ip, 0%nat, r1)
          end
      | _ => Some (ip, 0%nat, rest)
      end
  | None =>
      match l with
      | "."%char :: r1 =>
          match digitpart r1 with
          | Some (fp, k, r2) => Some (fp, k, r2)
          | None => None
          end
      | _ => None
      end
  end.

(** [exponent ::= ("e" | "E") [sign] digitpart], up to the end of the text. *)
Definition exponent (l : list ascii) : option Z :=
  match l with
  | [] => Some 0%Z
  | c :: r =>
      if Ascii.eqb c "e" || Ascii.eqb c "E" then
        let '(neg, r') :=
          match r with
          | "-"%char :: r' => (true, r')
          | "+"%char :: r' => (false, r')
          | _ => (false, r)
          end in
        match digitpart r' with
        | Some (e, _, []) => Some (if neg then (- e)%Z else e)
        | _ => None
        end
      else None
  end.

Definition scale (num : Z) (k : nat) (e : Z) : Q :=
  let p := (e - Z.of_nat k)%Z in
  if (0 <=? p)%Z then inject_Z (num * 10 ^ p)
  else Qmake num (Z.to_pos (10 ^ (- p))).

Definition absfloatvalue (l : list ascii) : option pyfloat :=
  let word := Py.lower (string_of_list_ascii l) in
  if String.eqb word "inf" || String.eqb word "infinity" then Some (Infinite false)
  else if String.eqb word "nan" then Some NaN
  else match number l with
       | Some (num, k, rest) =>
           match exponent rest with
           | Some e => Some (Finite (scale num k e))
           | None => None
           end
       | None => None
       end.

Definition negate (x : pyfloat) : pyfloat :=
  match x with
  | Finite q => Finite (Qopp q)
  | Infinite b => Infinite (negb b)
  | NaN => NaN
  end.

(** [float(s)] *)
Definition of_string (s : string) : result pyfloat :=
  let r :=
    match list_ascii_of_string (Py.strip s) with
    | "-"%char :: l => option_map negate (absfloatvalue l)
    | "+"%char :: l => absfloatvalue l
    | l => absfloatvalue l
    end in
  match r with
  | Some x => Return x
  | None => Raise ValueError
  end.

(** [x < t] for a finite threshold [t]; false on NaN. *)
Definition ltb (x : pyfloat) (t : Q) : bool :=
  match x with
  | Finite q => negb (Qle_bool t q)
  | Infinite negative => negative
  | NaN => false
  end.

End Float.

(** ** Configuration constants *)

Definition CONF_THRESHOLD : Q := Qmake 37 100.
Definition NMS_THRESHOLD : Q := Qmake 35 100.
Definition SPEECH_CONF_THRESHOLD : Q := Qmake 30 100.
Definition TTS_ANNOUNCEMENT_COOLDOWN : Q := inject_Z 5.

(** ** generate_speech_summary_from_detections_strings *)

(** A [Counter]: keys in the order of their first insertion. *)
Definition Counter : Type := list (string * Z).

(** [counter[key] += 1] *)
Fixpoint counter_incr (key : string) (c : Counter) : Counter :=
  match c with
  | [] => [(key, 1%Z)]
  | (k, n) :: c' =>
      if String.eqb k key then (k, (n + 1)%Z) :: c' else (k, n) :: counter_incr key c'
  end.

Abbreviation SemanticSet := (gset (string * string)).

(** The three lines of the [try] block that can raise: both splits and
    the conversion of the score. *)
Definition parse_item (item_str : string) : result (string * string * pyfloat) :=
  let! ab := Py.split_once " (" item_str in
  let! cd := Py.split_once ") [" (snd ab) in
  let! score := Float.of_string (Py.rstrip_char "]" (snd cd)) in
  Return (fst ab, fst cd, score).

Definition initial_buckets : gmap string Counter :=
  <["left" := []]> (<["right" := []]> (<["front" := []]> ∅)).

(** One iteration of the [for item_str in detections_list_strings] loop.
    Either [except] clause only logs, so an item that does not parse
    leaves both accumulators as they were. *)
Definition summary_step (acc : SemanticSet * gmap string Counter) (item_str : string)
  : SemanticSet * gmap string Counter :=
  let '(current_semantic_set, objects_by_direction) := acc in
  match parse_item item_str with
  | Raise _ => acc
  | Return (name_part, direction_part, score) =>
      if Float.ltb score SPEECH_CONF_THRESHOLD then acc
      else
        let primary_class_name := Py.strip (Py.before_comma name_part) in
        let direction := Py.lower (Py.strip direction_part) in
        (current_semantic_set ∪ {[ (primary_class_name, direction) ]},
         match objects_by_direction !! direction with
         | Some c => <[direction := counter_incr primary_class_name c]> objects_by_direction
         | None => objects_by_direction
         end)
  end.

(** [[format_object_with_count(n, c) for n, c in counter.items()]] *)
Fixpoint format_items (c : Counter) : result (list string) :=
  match c with
  | [] => Return []
  | (n, k) :: c' =>
      let! x := format_object_with_count n k in
      let! xs := format_items c' in
      Return (x :: xs)
  end.

Definition bucket (objects_by_direction : gmap string Counter) (direction : string) : Counter :=
  default [] (objects_by_direction !! direction).

Definition is_empty {A : Type} (l : list A) : bool :=
  match l with [] => true | _ => false end.

Definition build_clauses (objects_by_direction : gmap string Counter) : result (list string) :=
  let summary_clauses := [] in
  let! summary_clauses :=
    (if is_empty (bucket objects_by_direction "front") then Return summary_clauses
     else
       let! front_items := format_items (bucket objects_by_direction "front") in
       if is_empty front_items then Return summary_clauses
       else Return (List.app summary_clauses
                      ["in front of you, there's " ++ natural_join front_items])) in
  let! summary_clauses :=
    (if is_empty (bucket objects_by_direction "left") then Return summary_clauses
     else
       let! left_items := format_items (bucket objects_by_direction "left") in
       if is_empty left_items then Return summary_clauses
       else
         let connector :=
           if is_empty summary_clauses then "to your left, there's"
           else "while to your left, you'll find" in
         Return (List.app summary_clauses [connector ++ " " ++ natural_join left_items])) in
  if is_empty (bucket objects_by_direction "right") then Return summary_clauses
  else
    let! right_items := format_items (bucket objects_by_direction "right") in
    if is_empty right_items then Return summary_clauses
    else
      let connector :=
        if is_empty summary_clauses then "to your right, there's"
        else "and to your right," in
      Return (List.app summary_clauses [connector ++ " " ++ natural_join right_items]).

Definition generate_speech_summary_from_detections_strings
    (detections_list_strings : list string) : result (option string * SemanticSet) :=
  match detections_list_strings with
  | [] => Return (None, ∅)
  | first_item :: _ =>
      if Py.contains "No objects" first_item || Py.contains "Error" first_item
      then Return (None, ∅)
      else
        let '(current_semantic_set, objects_by_direction) :=
          fold_left summary_step detections_list_strings (∅, initial_buckets) in
        let! summary_clauses := build_clauses objects_by_direction in
        match summary_clauses with
        | [] => Return (None, current_semantic_set)
        | c0 :: more =>
            let final_summary := c0 in
            let final_summary :=
              if is_empty more then final_summary
              else final_summary ++ ", " ++ Py.join ", " more in
            let final_summary := final_summary ++ "." in
            if String.eqb (Py.strip final_summary) EmptyString
               || String.eqb final_summary "."
            then Return (None, current_semantic_set)
            else Return (Some (Py.strip final_summary), current_semantic_set)
        end
  end.

(** ** Numbers: int(), the ":.2f" format *)

(** [int(x)]: truncation towards zero. *)
Definition int_of (x : Q) : Z := Z.quot (Qnum x) (Zpos (Qden x)).

(** [x < y] and [x > y] on floats. *)
Definition Qltb (x y : Q) : bool := negb (Qle_bool y x).

(** The nearest integer, ties to the even one. *)
Definition round_half_even (x : Q) : Z :=
  let n := Qnum x in
  let d := Zpos (Qden x) in
  let fl := (n / d)%Z in
  let twice_rest := (2 * (n - fl * d))%Z in
  if (twice_rest <? d)%Z then fl
  else if (d <? twice_rest)%Z then (fl + 1)%Z
  else if Z.even fl then fl else (fl + 1)%Z.

(** The number of hundredths [f"{x:.2f}"] prints. *)
Definition hundredths (x : Q) : Z := round_half_even (Qmult x (inject_Z 100)).

(** [f"{x:.2f}"] *)
Definition format_2f (x : Q) : string :=
  let h := Z.abs (hundredths x) in
  let frac := (h mod 100)%Z in
  (if Qltb x (inject_Z 0) then "-" else EmptyString)
  ++ Py.str_int (h / 100) ++ "."
  ++ (if (frac <? 10)%Z then "0" else EmptyString) ++ Py.str_int frac.

(** [float(f"{x:.2f}")] *)
Definition round_2f (x : Q) : Q := Qmake (hundredths x) 100.

(** ** preprocess_frame_for_onnx

    Only the geometry matters here: the tensor itself is consumed by the
    detector, which is outside the program. *)

Definition Qmin (x y : Q) : Q := if Qle_bool x y then x else y.

Definition preprocess_frame_for_onnx (model_input_shape : option (Z * Z)) (imh imw : Z)
  : option (Q * Z * Z) :=
  match model_input_shape with
  | None => None
  | Some (ih, iw) =>
      if (imw =? 0)%Z || (imh =? 0)%Z then None
      else
        let s := Qmin (Qdiv (inject_Z iw) (inject_Z imw)) (Qdiv (inject_Z ih) (inject_Z imh)) in
        let nw := int_of (Qmult (inject_Z imw) s) in
        let nh := int_of (Qmult (inject_Z imh) s) in
        if (nw <=? 0)%Z || (nh <=? 0)%Z then None
        else Some (s, ((iw - nw) / 2)%Z, ((ih - nh) / 2)%Z)
  end.

(** ** The proposal decoder *)

(** A row of the detector output.  Its first four entries are kept as
    floats, which can be NaN or infinite: line 132 calls [int()] on them.
    The class scores after them are rationals, as the other numbers
    here. *)
Record Proposal : Type := {
  prop_box : list pyfloat;       (* prop[0:4]; shorter when the row is *)
  prop_scores : list Q           (* prop[4:] *)
}.

(** [prop.shape[0]] *)
Definition prop_length (prop : Proposal) : nat :=
  (List.length (prop_box prop) + List.length (prop_scores prop))%nat.

(** The entries of b_m, cf_m and cls_m that one row adds; [B] is the type
    of the box. *)
Record Kept (B : Type) : Type := {
  cand_box : B;                  (* prop[0:4]: cx, cy, w, h *)
  cand_conf : Q;                 (* an entry of cf_m *)
  cand_cls : nat                 (* an entry of cls_m *)
}.
Arguments cand_box {B} _.
Arguments cand_conf {B} _.
Arguments cand_cls {B} _.

(** A candidate as the decoder keeps it, and one whose box entries are
    all finite. *)
Abbreviation RawCandidate := (Kept (pyfloat * pyfloat * pyfloat * pyfloat)).
Abbreviation Candidate := (Kept (Q * Q * Q * Q)).

(** [np.argmax]: the first position of the largest entry, with that entry. *)
Fixpoint argmax_from (best_i : nat) (best : Q) (i : nat) (l : list Q) : nat * Q :=
  match l with
  | [] => (best_i, best)
  | x :: l' =>
      if Qltb best x then argmax_from i x (S i) l' else argmax_from best_i best (S i) l'
  end.

Definition argmax (l : list Q) : result (nat * Q) :=
  match l with
  | [] => Raise ValueError
  | x :: l' => Return (argmax_from 0%nat x 1%nat l')
  end.

(** The body of [for p_idx in range(proposals.shape[0])] for one row:
    [None] when the row adds nothing to b_m, cf_m, cls_m. *)
Definition decode_row (conf_threshold : Q) (num_cls : nat) (prop : Proposal)
  : result (option RawCandidate) :=
  if (prop_length prop <? 4 + num_cls)%nat then Return None
  else
    let class_scores := firstn num_cls (prop_scores prop) in
    let! am := argmax class_scores in
    let '(c_id, m_s) := am in
    if Qltb conf_threshold m_s then
      match prop_box prop with
      | [cx; cy; w; h] =>
          Return (Some {| cand_box := (cx, cy, w, h); cand_conf := m_s; cand_cls := c_id |})
      | _ => Return None
      end
    else Return None.

Fixpoint decode (conf_threshold : Q) (num_cls : nat) (proposals : list Proposal)
  : result (list RawCandidate) :=
  match proposals with
  | [] => Return []
  | prop :: rest =>
      let! c := decode_row conf_threshold num_cls prop in
      let! cs := decode conf_threshold num_cls rest in
      Return (match c with Some c => c :: cs | None => cs end)
  end.

(** ** The suppressor *)

Record Rect : Type := { rect_x : Z; rect_y : Z; rect_w : Z; rect_h : Z }.

(** [x - y] on floats: NaN and the infinities as IEEE 754 has them.  On
    finite values the result is the exact one: rounding is not modelled,
    nor an overflow of the difference, which depends on the width NumPy
    computes it in. *)
Definition float_sub (x y : pyfloat) : pyfloat :=
  match x, y with
  | Finite a, Finite b => Finite (Qminus a b)
  | NaN, _ | _, NaN => NaN
  | Infinite s, Finite _ => Infinite s
  | Finite _, Infinite s => Infinite (negb s)
  | Infinite s, Infinite s' => if Bool.eqb s s' then NaN else Infinite s
  end.

(** [x / 2] on floats. *)
Definition float_half (x : pyfloat) : pyfloat :=
  match x with
  | Finite a => Finite (Qdiv a (inject_Z 2))
  | Infinite s => Infinite s
  | NaN => NaN
  end.

(** [int(x)] on a float: ValueError on NaN, OverflowError on an infinity. *)
Definition int_of_float (x : pyfloat) : result Z :=
  match x with
  | Finite a => Return (int_of a)
  | Infinite _ => Raise OverflowError
  | NaN => Raise ValueError
  end.

(** An entry of cv_b: the top-left corner and the size, as integers;
    [int()] raises when a number it is given is NaN or infinite. *)
Definition cv_box (c : RawCandidate) : result Rect :=
  let '(b0, b1, b2, b3) := cand_box c in
  let! x := int_of_float (float_sub b0 (float_half b2)) in
  let! y := int_of_float (float_sub b1 (float_half b3)) in
  let! w := int_of_float b2 in
  let! h := int_of_float b3 in
  Return {| rect_x := x; rect_y := y; rect_w := w; rect_h := h |}.

(** Line 132: cv_b, from b_m. *)
Fixpoint cv_boxes (b_m : list RawCandidate) : result (list Rect) :=
  match b_m with
  | [] => Return []
  | b :: rest =>
      let! r := cv_box b in
      let! rs := cv_boxes rest in
      Return (r :: rs)
  end.

(** Lines 125-132: b_m, cf_m and cls_m, with cv_b. *)
Definition candidate_lists (conf_threshold : Q) (num_cls : nat) (proposals : list Proposal)
  : result (list RawCandidate * list Rect) :=
  let! b_m := decode conf_threshold num_cls proposals in
  let! cv_b := cv_boxes b_m in
  Return (b_m, cv_b).

(** A float that is a number. *)
Definition finite (x : pyfloat) : option Q :=
  match x with
  | Finite a => Some a
  | _ => None
  end.

(** A kept candidate with its box as rationals, when its four entries
    are finite: what the loop over the indices reads from b_m, since it
    runs only after line 132 has returned. *)
Definition finite_candidate (c : RawCandidate) : option Candidate :=
  let '(b0, b1, b2, b3) := cand_box c in
  match finite b0, finite b1, finite b2, finite b3 with
  | Some cx, Some cy, Some w, Some h =>
      Some {| cand_box := (cx, cy, w, h); cand_conf := cand_conf c; cand_cls := cand_cls c |}
  | _, _, _, _ => None
  end.

(** The entry of cv_b of a box with finite entries. *)
Definition finite_cv_box (c : Candidate) : Rect :=
  let '(cx, cy, w, h) := cand_box c in
  {| rect_x := int_of (Qminus cx (Qdiv w (inject_Z 2)));
     rect_y := int_of (Qminus cy (Qdiv h (inject_Z 2)));
     rect_w := int_of w;
     rect_h := int_of h |}.

Definition no_box : Rect := {| rect_x := 0; rect_y := 0; rect_w := 0; rect_h := 0 |}.

Definition area (r : Rect) : Z := (rect_w r * rect_h r)%Z.

Definition intersection_area (a b : Rect) : Z :=
  let w := (Z.min (rect_x a + rect_w a) (rect_x b + rect_w b) - Z.max (rect_x a) (rect_x b))%Z in
  let h := (Z.min (rect_y a + rect_h a) (rect_y b + rect_h b) - Z.max (rect_y a) (rect_y b))%Z in
  (Z.max 0 w * Z.max 0 h)%Z.

(** Modelled from the spec: the Intersection-over-Union of two boxes, which
    cv2.dnn.NMSBoxes computes outside the repository: "overlap ratio between
    two boxes' areas".  It is 0 when the union is empty. *)
Definition iou (a b : Rect) : Q :=
  let i := intersection_area a b in
  Qdiv (inject_Z i) (inject_Z (area a + area b - i)).

Section Suppressor.

Context {A : Type}.
Variable box : A -> Rect.
Variable conf : A -> Q.
Variable nms_threshold : Q.

(** Modelled from the spec: the test of the absent Suppressor, "discard
    all others whose Intersection-over-Union with it exceeds t_iou": [c] is
    discarded once [kept] has been taken. *)
Definition suppressed_by (kept c : A) : bool :=
  Qltb nms_threshold (iou (box kept) (box c)).

(** Modelled from the spec: the order of the absent Suppressor, "sort
    descending by confidence", ties "by the implicit stable sort": equal
    confidences stay in their input order. *)
Fixpoint insert_desc (x : A) (l : list A) : list A :=
  match l with
  | [] => [x]
  | y :: l' => if Qle_bool (conf y) (conf x) then x :: l else y :: insert_desc x l'
  end.

Fixpoint sort_desc (l : list A) : list A :=
  match l with
  | [] => []
  | x :: l' => insert_desc x (sort_desc l')
  end.

(** Modelled from the spec: the greedy loop of the Suppressor, whose code
    (cv2.dnn.NMSBoxes) is not part of the repository: "repeatedly take
    the highest remaining box, keep it, and discard all others whose
    Intersection-over-Union with it exceeds t_iou; repeat until none
    remain".  The argument is the list of remaining boxes, highest
    first. *)
Equations? greedy (l : list A) : list A by wf (List.length l) lt :=
  greedy [] := [];
  greedy (b :: rest) := b :: greedy (List.filter (fun c => negb (suppressed_by b c)) rest).
Proof.
  clear greedy. induction rest as [|c rest IH]; simpl; [lia|].
  destruct (negb (suppressed_by b c)); simpl; lia.
Qed.

Variable score_threshold : Q.

(** Modelled from the spec: the absent Suppressor on a list of boxes
    carrying any payload: drop the boxes that do not exceed the detection
    threshold, order the rest, run the greedy loop. *)
Definition suppress (l : list A) : list A :=
  greedy (sort_desc (List.filter (fun c => Qltb score_threshold (conf c)) l)).

End Suppressor.

(** Modelled from the spec: the Suppressor, absent from the repository
    (cv2.dnn.NMSBoxes).  "Input: candidate boxes, their confidences, the
    detection threshold, and an IoU threshold.  Algorithm: standard greedy
    NMS - sort descending by confidence; repeatedly take the highest
    remaining box, keep it, and discard all others whose IoU with it
    exceeds t_iou.  Output: index set of kept candidates."  The detection
    threshold drops the boxes whose confidence does not exceed it; the
    sort is the stable one. *)
Definition NMSBoxes (bboxes : list Rect) (scores : list Q) (score_threshold nms_threshold : Q)
  : list nat :=
  let tagged := combine (seq 0 (List.length bboxes)) (combine bboxes scores) in
  map fst (suppress (fun c => fst (snd c)) (fun c => snd (snd c))
             nms_threshold score_threshold tagged).

(** ** The coordinate remapper *)

Record Detection : Type := {
  class_name : string;
  score : Q;
  direction : string;
  bbox : Z * Z * Z * Z           (* x1c, y1c, x2c, y2c *)
}.

(** [s.split(',')[0]] of a class name. *)
Definition short_name (c_n : string) : string := Py.before_comma c_n.

(** x1c, y1c, x2c, y2c: the letterbox undone, corners taken and clamped. *)
Definition clamped_corners (scale : Q) (dw dh : Z) (original_width original_height : Z)
    (c : Candidate) : Z * Z * Z * Z :=
  let '(cx, cy, w, h) := cand_box c in
  let ox := Qdiv (Qminus cx (inject_Z dw)) scale in
  let oy := Qdiv (Qminus cy (inject_Z dh)) scale in
  let ow := Qdiv w scale in
  let oh := Qdiv h scale in
  let x1 := int_of (Qminus ox (Qdiv ow (inject_Z 2))) in
  let y1 := int_of (Qminus oy (Qdiv oh (inject_Z 2))) in
  let x2 := int_of (Qplus ox (Qdiv ow (inject_Z 2))) in
  let y2 := int_of (Qplus oy (Qdiv oh (inject_Z 2))) in
  (Z.max 0 x1, Z.max 0 y1, Z.min (original_width - 1) x2, Z.min (original_height - 1) y2).

(** left / front / right from the horizontal centre of the clamped box. *)
Definition direction_of (original_width : Z) (x1c x2c : Z) : string :=
  let obj_cx := Qdiv (inject_Z (x1c + x2c)) (inject_Z 2) in
  let half := Qdiv (inject_Z original_width) (inject_Z 2) in
  let margin := Qmult (inject_Z original_width) (Qmake 1 10) in
  if Qltb obj_cx (Qminus half margin) then "left"
  else if Qltb (Qplus half margin) obj_cx then "right"
  else "front".

(** The body of [for i in indices] for the candidate [cands[i]]: [None]
    when the iteration emits nothing ([continue], or collapsed corners). *)
Definition remap (class_names : list string) (scale : Q) (dw dh : Z)
    (original_width original_height : Z) (c : Candidate) : option Detection :=
  let c_id := cand_cls c in
  if (List.length class_names <=? c_id)%nat then None
  else
    let c_n := nth c_id class_names EmptyString in
    let '(x1c, y1c, x2c, y2c) :=
      clamped_corners scale dw dh original_width original_height c in
    if (x1c <? x2c)%Z && (y1c <? y2c)%Z then
      Some {| class_name := short_name c_n; score := cand_conf c;
              direction := direction_of original_width x1c x2c;
              bbox := (x1c, y1c, x2c, y2c) |}
    else None.

(** [for i in indices]: the detections emitted, and whether an index
    outside the candidate lists stopped the loop with an exception. *)
Fixpoint remap_loop (class_names : list string) (scale : Q) (dw dh : Z)
    (original_width original_height : Z) (cands : list Candidate) (indices : list nat)
  : list Detection * bool :=
  match indices with
  | [] => ([], false)
  | i :: rest =>
      match cands !! i with
      | None => ([], true)
      | Some c =>
          let '(ds, raised) :=
            remap_loop class_names scale dw dh original_width original_height cands rest in
          (match remap class_names scale dw dh original_width original_height c with
           | Some d => d :: ds
           | None => ds
           end, raised)
      end
  end.

(** What the [try] block of perform_inference_and_postprocess leaves
    behind, for detection threshold [conf_threshold]. *)
Inductive Postprocessed : Type :=
| NoIndices                                      (* the [else] of [if len(indices) > 0] *)
| Emitted (ds : list Detection) (raised : bool). (* the loop ran; [raised]: it was cut short *)

Definition postprocess (conf_threshold nms_threshold : Q) (class_names : list string)
    (scale : Q) (dw dh : Z) (original_width original_height : Z)
    (proposals : list Proposal) : Postprocessed :=
  match candidate_lists conf_threshold (List.length class_names) proposals with
  | Raise _ => Emitted [] true
  | Return (b_m, cv_b) =>
      let cf_m := map cand_conf b_m in
      let indices :=
        if is_empty cv_b then [] else NMSBoxes cv_b cf_m conf_threshold nms_threshold in
      if is_empty indices then NoIndices
      else
        let '(ds, raised) :=
          remap_loop class_names scale dw dh original_width original_height
            (omap finite_candidate b_m) indices in
        Emitted ds raised
  end.

(** The detections the pipeline reports for a given detection threshold. *)
Definition surviving_detections (conf_threshold nms_threshold : Q) (class_names : list string)
    (scale : Q) (dw dh : Z) (original_width original_height : Z)
    (proposals : list Proposal) : list Detection :=
  match postprocess conf_threshold nms_threshold class_names scale dw dh
          original_width original_height proposals with
  | NoIndices => []
  | Emitted ds _ => ds
  end.

(** ** Process-wide state *)

Record Globals : Type := {
  class_names : list string;
  onnx_session : bool;                          (* is a session loaded *)
  model_input_shape : option (Z * Z);           (* ih, iw *)
  detection_active : bool;
  announce_scene_clear : bool;
  last_generated_speech_text : string;
  last_semantic_summary_set : SemanticSet;
  last_announcement_text_generation_time : Q
}.

(** A decoded upload: its size and what [onnx_session.run] does on it
    ([None]: the call, or the unpacking of its output, raises). *)
Record Frame : Type := {
  vid_height : Z;
  vid_width : Z;
  run_outputs : option (list Proposal)
}.

Definition info_string (d : Detection) : string :=
  class_name d ++ " (" ++ direction d ++ ") [" ++ format_2f (score d) ++ "]".

Definition json_entry (d : Detection) : Detection :=
  {| class_name := class_name d; score := round_2f (score d);
     direction := direction d; bbox := bbox d |}.

(** perform_inference_and_postprocess: detections_info and detections_json
    (the drawn frame is not modelled). *)
Definition perform_inference_and_postprocess (g : Globals) (frame : Frame)
    (original_width original_height : Z) : list string * list Detection :=
  match preprocess_frame_for_onnx (model_input_shape g) (vid_height frame) (vid_width frame) with
  | None => ([], [])
  | Some (scale, dw, dh) =>
      if Qeq_bool scale (inject_Z 0) then ([], [])
      else if negb (onnx_session g) then (["ONNX model not loaded."], [])
      else
        match run_outputs frame with
        | None => (["Infer Error."], [])
        | Some proposals =>
            match postprocess CONF_THRESHOLD NMS_THRESHOLD (class_names g) scale dw dh
                    original_width original_height proposals with
            | NoIndices => (["No objects (Conf:0.37,NMS:0.35)."], [])
            | Emitted ds raised =>
                (List.app (map info_string ds) (if raised then ["Infer Error."] else []),
                 map json_entry ds)
            end
        end
  end.

(** ** The announcement state machine (process_image_route) *)

(** Truth value of a [str | None]. *)
Definition truthy (s : option string) : bool :=
  match s with
  | Some t => negb (String.eqb t EmptyString)
  | None => false
  end.

Definition nonempty (s : SemanticSet) : bool := negb (bool_decide (s = ∅)).

Definition speech_for_this_response (g : Globals) (generated_summary_text : option string)
  : option string :=
  if truthy generated_summary_text then generated_summary_text
  else if announce_scene_clear g && nonempty (last_semantic_summary_set g)
  then Some "Scene clear."
  else None.

Definition make_new_announcement (g : Globals) (speech : option string)
    (current_semantic_set : SemanticSet) : bool :=
  match speech with
  | Some text =>
      if negb (truthy speech) then false
      else if String.eqb text "Scene clear." then nonempty (last_semantic_summary_set g)
      else negb (bool_decide (current_semantic_set = last_semantic_summary_set g))
           || negb (nonempty (last_semantic_summary_set g))
  | None => false
  end.

(** The guard of the [if] that rewrites the three globals. *)
Definition commits (g : Globals) (speech : option string)
    (current_semantic_set : SemanticSet) (time_now : Q) : bool :=
  make_new_announcement g speech current_semantic_set
  && Qltb TTS_ANNOUNCEMENT_COOLDOWN
          (Qminus time_now (last_announcement_text_generation_time g)).

Definition set_announcement (g : Globals) (text : string) (s : SemanticSet) (t : Q) : Globals :=
  {| class_names := class_names g;
     onnx_session := onnx_session g;
     model_input_shape := model_input_shape g;
     detection_active := detection_active g;
     announce_scene_clear := announce_scene_clear g;
     last_generated_speech_text := text;
     last_semantic_summary_set := s;
     last_announcement_text_generation_time := t |}.

(** Lines 249-261: from the summary of this frame and the clock to the
    new globals and the text put in the response. *)
Definition announce (g : Globals) (generated_summary_text : option string)
    (current_semantic_set : SemanticSet) (time_now : Q) : Globals * option string :=
  let speech := speech_for_this_response g generated_summary_text in
  match speech with
  | Some text =>
      if commits g speech current_semantic_set time_now then
        (set_announcement g text
           (if String.eqb text "Scene clear." then ∅ else current_semantic_set)
           time_now,
         speech)
      else (g, speech)
  | None => (g, speech)
  end.

Inductive Upload : Type :=
| NoImageField                 (* 'image' not in request.files *)
| NoFilename                   (* file.filename == '' *)
| Unreadable                   (* opening or converting the image raises *)
| Readable (frame : Frame).

Record Request : Type := {
  upload : Upload;
  draw_boxes : bool;           (* ?draw_boxes=true *)
  encodes : bool               (* cv2.imencode succeeds *)
}.

Inductive Response : Type :=
| Status423 (message speech_output : string)   (* detection paused *)
| Status400 (error : string)
| Status503
| Status500 (e : exception)    (* an exception left the route *)
| Jpeg                         (* the drawn frame *)
| Detections (detections_text : list string) (detections_json : list Detection)
             (speech_output : option string).

Definition process_image_route (g : Globals) (req : Request) (time_now : Q)
  : Globals * Response :=
  if negb (detection_active g)
  then (g, Status423 "Detection is paused." "Detection is currently paused.")
  else
    match upload req with
    | NoImageField => (g, Status400 "No image file provided.")
    | NoFilename => (g, Status400 "No selected file.")
    | Unreadable => (g, Status400 "Could not process image")
    | Readable frame =>
        if negb (onnx_session g) then (g, Status503)
        else
          let '(detection_strings, detections_json_data) :=
            perform_inference_and_postprocess g frame (vid_width frame) (vid_height frame) in
          match generate_speech_summary_from_detections_strings detection_strings with
          | Raise e => (g, Status500 e)
          | Return (generated_summary_text, current_semantic_set) =>
              let '(g', speech) :=
                announce g generated_summary_text current_semantic_set time_now in
              (g', if draw_boxes req && encodes req then Jpeg
                   else Detections detection_strings detections_json_data speech)
          end
    end.

(** The text the response carries for the caller to speak, if any. *)
Definition speech_output_of (r : Response) : option string :=
  match r with
  | Status423 _ speech_output => Some speech_output
  | Detections _ _ speech_output => speech_output
  | Status400 _ | Status503 | Status500 _ | Jpeg => None
  end.

(** What perform_inference_and_postprocess reports for a frame in which
    nothing was detected: nothing at all, or its "No objects" message. *)
Definition no_detections (detection_strings : list string) : Prop :=
  detection_strings = [] \/ detection_strings = ["No objects (Conf:0.37,NMS:0.35)."].

(** The ways the processing of an upload can fail (section 7 of the
    specification), as they show in the request and in the globals. *)
Inductive rejected (g : Globals) : Upload -> Prop :=
| input_error_no_image : rejected g NoImageField
| input_error_no_filename : rejected g NoFilename
| input_error_unreadable : rejected g Unreadable
| model_unavailable frame : onnx_session g = false -> rejected g (Readable frame).

(** Inside the pipeline: the letterbox geometry is invalid; the detector
    call raises; lines 125-132 of the post-processing raise (np.argmax on
    an empty class table, [int()] on a NaN or infinite box entry); no row
    is long enough for the class table. *)
Inductive failed_inside (g : Globals) (frame : Frame) : Prop :=
| input_error_geometry :
    preprocess_frame_for_onnx (model_input_shape g) (vid_height frame) (vid_width frame) = None ->
    failed_inside g frame
| inference_error :
    run_outputs frame = None -> failed_inside g frame
| postprocessing_error proposals e :
    run_outputs frame = Some proposals ->
    candidate_lists CONF_THRESHOLD (List.length (class_names g)) proposals = Raise e ->
    failed_inside g frame
| decode_anomaly proposals :
    run_outputs frame = Some proposals ->
    Forall (fun prop => (prop_length prop < 4 + List.length (class_names g))%nat) proposals ->
    failed_inside g frame.

(** ** Sample states *)

(** The server after "to your left, there's a dog." was announced at
    time 100. *)
Definition dog_announced : Globals :=
  {| class_names := ["cat"; "dog"];
     onnx_session := true;
     model_input_shape := Some (640, 640)%Z;
     detection_active := true;
     announce_scene_clear := true;
     last_generated_speech_text := "to your left, there's a dog.";
     last_semantic_summary_set := {[ ("dog", "left") ]};
     last_announcement_text_generation_time := inject_Z 100 |}.

(** The same, with scene-clear announcements switched off. *)
Definition dog_announced_quiet : Globals :=
  {| class_names := ["cat"; "dog"];
     onnx_session := true;
     model_input_shape := Some (640, 640)%Z;
     detection_active := true;
     announce_scene_clear := false;
     last_generated_speech_text := "to your left, there's a dog.";
     last_semantic_summary_set := {[ ("dog", "left") ]};
     last_announcement_text_generation_time := inject_Z 100 |}.

Definition cat_summary : string := "in front of you, there's a cat.".
Definition cat_set : SemanticSet := {[ ("cat", "front") ]}.

(** A 640x480 upload on which the detector call raises. *)
Definition failing_frame : Frame :=
  {| vid_height := 480; vid_width := 640; run_outputs := None |}.

(** The end-to-end scenario of the specification: two cats in front with
    scores 0.9 and 0.8, a dog to the left with score 0.5. *)
Definition scenario_detections : list Detection :=
  [ {| class_name := "cat"; score := Qmake 9 10; direction := "front";
       bbox := (300, 100, 340, 200)%Z |};
    {| class_name := "cat"; score := Qmake 8 10; direction := "front";
       bbox := (280, 300, 360, 400)%Z |};
    {| class_name := "dog"; score := Qmake 5 10; direction := "left";
       bbox := (10, 100, 90, 200)%Z |} ].

(** Four proposal rows for two classes: a cat, a weaker cat on top of it,
    a dog elsewhere, and a row that is too short. *)
Definition sample_proposals : list Proposal :=
  [ {| prop_box := map Finite [inject_Z 100; inject_Z 100; inject_Z 50; inject_Z 50];
       prop_scores := [Qmake 9 10; Qmake 1 10] |};
    {| prop_box := map Finite [inject_Z 102; inject_Z 101; inject_Z 50; inject_Z 50];
       prop_scores := [Qmake 5 10; Qmake 2 10] |};
    {| prop_box := map Finite [inject_Z 400; inject_Z 300; inject_Z 80; inject_Z 60];
       prop_scores := [Qmake 1 10; Qmake 55 100] |};
    {| prop_box := map Finite [inject_Z 10; inject_Z 10; inject_Z 5]; prop_scores := [] |} ].

(** The first and third of those rows, and a row whose box holds a NaN,
    with a score between 0.37 and 0.6. *)
Definition nan_proposals : list Proposal :=
  [ {| prop_box := map Finite [inject_Z 100; inject_Z 100; inject_Z 50; inject_Z 50];
       prop_scores := [Qmake 9 10; Qmake 1 10] |};
    {| prop_box := [NaN; Finite (inject_Z 101); Finite (inject_Z 50); Finite (inject_Z 50)];
       prop_scores := [Qmake 5 10; Qmake 2 10] |};
    {| prop_box := map Finite [inject_Z 400; inject_Z 300; inject_Z 80; inject_Z 60];
       prop_scores := [Qmake 1 10; Qmake 55 100] |} ].

(** A 640x640 upload on which the detector returns those rows. *)
Definition sample_frame : Frame :=
  {| vid_height := 640; vid_width := 640; run_outputs := Some sample_proposals |}.

(** ** Vocabulary of the specification

    The words the specification uses for the formatter, stated on their
    own so that the code can be compared with them. *)

Definition ends_with (name suffix : string) : Prop := exists stem, name = stem ++ suffix.

Definition sibilant_ending (name : string) : Prop :=
  ends_with name "s" \/ ends_with name "sh" \/ ends_with name "ch"
  \/ ends_with name "x" \/ ends_with name "z".

(** A letter: a to z in either case. *)
Definition letter (c : ascii) : Prop :=
  let n := nat_of_ascii c in
  (97 <= n <= 122)%nat \/ (65 <= n <= 90)%nat.

(** A vowel letter: a, e, i, o, u in either case. *)
Definition vowel_letter (c : ascii) : Prop :=
  In c ["a"; "e"; "i"; "o"; "u"; "A"; "E"; "I"; "O"; "U"]%char.

(** A consonant: a letter that is not a vowel letter. *)
Definition consonant (c : ascii) : Prop := letter c /\ ~ vowel_letter c.

(** What the code tests instead, [name[-2] not in "aeiou"]: any character
    other than a lower-case a, e, i, o, u. *)
Definition not_aeiou (c : ascii) : Prop :=
  c <> "a"%char /\ c <> "e"%char /\ c <> "i"%char /\ c <> "o"%char /\ c <> "u"%char.

(** The plural rule, for a given reading [before_y] of "consonant": "es"
    after s, sh, ch, x, z; "ies" for the y of a trailing consonant+y; "s"
    otherwise. *)
Inductive plural_with (before_y : ascii -> Prop) : string -> string -> Prop :=
| plural_es name :
    sibilant_ending name -> plural_with before_y name (name ++ "es")
| plural_ies stem c :
    before_y c -> plural_with before_y (stem ++ String c "y") (stem ++ String c "ies")
| plural_s name :
    ~ sibilant_ending name ->
    (forall stem c, name = stem ++ String c "y" -> ~ before_y c) ->
    plural_with before_y name (name ++ "s").

(** The rule of the specification. *)
Definition plural_of : string -> string -> Prop := plural_with consonant.

(** The character before a trailing y, if there is one, is read alike by
    the specification and by the code: it is a consonant or a lower-case
    vowel. *)
Definition plain_before_y (name : string) : Prop :=
  forall stem c, name = stem ++ String c "y" ->
                 consonant c \/ In c ["a"; "e"; "i"; "o"; "u"]%char.

Inductive phrase_of (name plural : string) : Z -> string -> Prop :=
| phrase_an c rest :
    name = String c rest -> vowel_letter c -> phrase_of name plural 1 ("an " ++ name)
| phrase_a c rest :
    name = String c rest -> ~ vowel_letter c -> phrase_of name plural 1 ("a " ++ name)
| phrase_two : phrase_of name plural 2 ("two " ++ plural)
| phrase_three : phrase_of name plural 3 ("three " ++ plural)
| phrase_many count :
    count <> 1%Z -> count <> 2%Z -> count <> 3%Z ->
    phrase_of name plural count (Py.str_int count ++ " " ++ plural).

(** The Suppressor's vocabulary: a list in descending order of confidence,
    and a list no member of which suppresses a later one. *)
Definition descending {A : Type} (conf : A -> Q) : list A -> Prop :=
  ForallOrdPairs (fun earlier later => (conf later <= conf earlier)%Q).

Definition pairwise_apart {A : Type} (box : A -> Rect) (nms_threshold : Q) : list A -> Prop :=
  ForallOrdPairs (fun earlier later => suppressed_by box nms_threshold earlier later = false).

(** The invariant of a reported box in a [width] x [height] image. *)
Definition bbox_within (width height : Z) (d : Detection) : Prop :=
  let '(x1, y1, x2, y2) := bbox d in
  (0 <= x1 /\ x1 < x2 /\ x2 <= width - 1 /\ 0 <= y1 /\ y1 < y2 /\ y2 <= height - 1)%Z.

(** Clamped corners that no longer span a box. *)
Definition collapsed (corners : Z * Z * Z * Z) : Prop :=
  let '(x1, y1, x2, y2) := corners in (x2 <= x1 \/ y2 <= y1)%Z.

From Stdlib Require DecimalZ.

(** * The other routes and the start-up code *)

(** ** Updates of single globals *)

Definition set_detection (g : Globals) (active : bool) (text : string) : Globals :=
  {| class_names := class_names g;
     onnx_session := onnx_session g;
     model_input_shape := model_input_shape g;
     detection_active := active;
     announce_scene_clear := announce_scene_clear g;
     last_generated_speech_text := text;
     last_semantic_summary_set := last_semantic_summary_set g;
     last_announcement_text_generation_time := last_announcement_text_generation_time g |}.

Definition set_announce_scene_clear (g : Globals) (value : bool) : Globals :=
  {| class_names := class_names g;
     onnx_session := onnx_session g;
     model_input_shape := model_input_shape g;
     detection_active := detection_active g;
     announce_scene_clear := value;
     last_generated_speech_text := last_generated_speech_text g;
     last_semantic_summary_set := last_semantic_summary_set g;
     last_announcement_text_generation_time := last_announcement_text_generation_time g |}.

Definition set_class_names (g : Globals) (names : list string) : Globals :=
  {| class_names := names;
     onnx_session := onnx_session g;
     model_input_shape := model_input_shape g;
     detection_active := detection_active g;
     announce_scene_clear := announce_scene_clear g;
     last_generated_speech_text := last_generated_speech_text g;
     last_semantic_summary_set := last_semantic_summary_set g;
     last_announcement_text_generation_time := last_announcement_text_generation_time g |}.


(** ** toggle_detection

    The response repeats the message under "message" and "speech_output"
    and gives the new value of detection_active. *)
Definition toggle_detection (g : Globals) : Globals * (string * bool) :=
  let active := negb (detection_active g) in
  let speech_text := if negb active then "Detection Paused." else "Detection Resumed." in
  (set_detection g active speech_text, (speech_text, active)).

(** ** get_last_announcement_text_route: the text with status 200, or
    [None] for the 404 answer "No previous announcement." *)
Definition get_last_announcement_text_route (g : Globals) : option string :=
  if truthy (Some (last_generated_speech_text g))
  then Some (last_generated_speech_text g)
  else None.

(** ** setting_announce_scene_clear_route *)

(** What [data['value']] holds in the JSON object of a POST. *)
Inductive JsonValue : Type :=
| JBool (b : bool)
| JNotBool.                     (* a number, a string, null, an array, an object *)

Inductive SettingRequest : Type :=
| SettingGet
| SettingPost (value : option JsonValue).  (* [None]: no body, an empty object, no "value" key *)

Inductive SettingResponse : Type :=
| SettingValue (value : bool)   (* 200, with "value" *)
| SettingInvalid.               (* 400, "Invalid payload." *)

Definition setting_announce_scene_clear_route (g : Globals) (req : SettingRequest)
  : Globals * SettingResponse :=
  match req with
  | SettingPost (Some (JBool value)) =>
      (set_announce_scene_clear g value, SettingValue value)
  | SettingPost _ => (g, SettingInvalid)
  | SettingGet => (g, SettingValue (announce_scene_clear g))
  end.

(** ** get_status: detection_active, model_loaded, model_input_name is not
    modelled, model_input_shape, class_names_count. *)
Definition get_status (g : Globals) : bool * bool * option (Z * Z) * nat :=
  (detection_active g, onnx_session g, model_input_shape g, List.length (class_names g)).

(** ** What one detection string contributes to a summary *)

(** The (class name, direction) pair an item adds to the semantic set:
    [None] when the item does not parse or its score is below the speech
    threshold. *)
Definition observation (item_str : string) : option (string * string) :=
  match parse_item item_str with
  | Raise _ => None
  | Return (name_part, direction_part, score) =>
      if Float.ltb score SPEECH_CONF_THRESHOLD then None
      else Some (Py.strip (Py.before_comma name_part), Py.lower (Py.strip direction_part))
  end.

(** The first item is one of the messages the summariser looks for. *)
Definition is_message (item_str : string) : bool :=
  Py.contains "No objects" item_str || Py.contains "Error" item_str.

(** The three ways a summary sentence can begin. *)
Definition lead_in (text : string) : Prop :=
  Py.startswith text "in front of you, there's " = true
  \/ Py.startswith text "to your left, there's " = true
  \/ Py.startswith text "to your right, there's " = true.

(** Every name counted in a bucket, with the direction of the bucket,
    satisfies [P]. *)
Definition buckets_hold (P : string -> string -> Prop) (B : gmap string Counter) : Prop :=
  forall dir c k n, B !! dir = Some c -> In (k, n) c -> P k dir.

(** ** load_class_names_from_pickle *)

Definition CURATED_OBJECT_CLASS_CANDIDATES : list string :=
  [ "person"; "backpack"; "handbag"; "suitcase"; "umbrella"; "bicycle"; "car";
    "motorcycle"; "bus"; "truck"; "boat"; "airplane"; "traffic light";
    "stop sign"; "fire hydrant"; "parking meter"; "bench"; "street sign"; "bird";
    "cat"; "dog"; "horse"; "sheep"; "cow"; "chair"; "sofa"; "potted plant";
    "bed"; "dining table"; "table"; "desk"; "toilet"; "door"; "window";
    "bookshelf"; "cabinet"; "television"; "tv"; "monitor"; "laptop"; "mouse";
    "remote control"; "keyboard"; "cell phone"; "microwave"; "oven"; "toaster";
    "sink"; "refrigerator"; "blender"; "book"; "clock"; "vase"; "scissors";
    "teddy bear"; "hair drier"; "toothbrush"; "bottle"; "cup"; "fork"; "knife";
    "spoon"; "bowl"; "plate"; "tennis racket"; "baseball bat"; "sports ball";
    "skateboard"; "building"; "house"; "sky"; "tree"; "road"; "sidewalk";
    "wall"; "floor"; "ceiling"; "stairs"; "pole"; "fence"; "signboard";
    "light"; "light source"; "cushion"; "pillow" ].

(** [g] with another text to repeat. *)
Definition with_text (g : Globals) (text : string) : Globals :=
  set_detection g (detection_active g) text.

(** ** Vocabulary for the decoder *)

(** [prop[4:4+num_cls]] *)
Definition class_scores (num_cls : nat) (prop : Proposal) : list Q :=
  firstn num_cls (prop_scores prop).

(** [c] is what the decoder makes of the row [prop]: its box is the first
    four entries, its class the first position of the largest class score,
    its confidence that score. *)
Definition decoded_from (num_cls : nat) (prop : Proposal) (c : RawCandidate) : Prop :=
  (4 + num_cls <= prop_length prop)%nat
  /\ (exists cx cy w h, prop_box prop = [cx; cy; w; h] /\ cand_box c = (cx, cy, w, h))
  /\ (cand_cls c < num_cls)%nat
  /\ class_scores num_cls prop !! cand_cls c = Some (cand_conf c)
  /\ Forall (fun x => (x <= cand_conf c)%Q) (class_scores num_cls prop)
  /\ (forall j x, (j < cand_cls c)%nat -> class_scores num_cls prop !! j = Some x ->
                  (x < cand_conf c)%Q).

(** A row as the detector gives it: its box part has at most four
    entries, and class scores only after four of them. *)
Definition well_formed_row (prop : Proposal) : Prop :=
  (List.length (prop_box prop) <= 4)%nat
  /\ ((List.length (prop_box prop) < 4)%nat -> prop_scores prop = []).

(** ** Numerals: what [str] writes and [float] reads *)

(** The value of a decimal numeral read from the left with [acc] already read. *)
Fixpoint uint_value (d : Decimal.uint) (acc : Z) : Z :=
  match d with
  | Decimal.Nil => acc
  | Decimal.D0 d => uint_value d (10 * acc + 0)
  | Decimal.D1 d => uint_value d (10 * acc + 1)
  | Decimal.D2 d => uint_value d (10 * acc + 2)
  | Decimal.D3 d => uint_value d (10 * acc + 3)
  | Decimal.D4 d => uint_value d (10 * acc + 4)
  | Decimal.D5 d => uint_value d (10 * acc + 5)
  | Decimal.D6 d => uint_value d (10 * acc + 6)
  | Decimal.D7 d => uint_value d (10 * acc + 7)
  | Decimal.D8 d => uint_value d (10 * acc + 8)
  | Decimal.D9 d => uint_value d (10 * acc + 9)
  end%Z.

(** Where the digits of a number stop in the text [":.2f"] writes. *)
Definition digits_end (rest : list ascii) : Prop :=
  rest = [] \/ exists r, rest = "."%char :: r.

(** The two fraction digits of [":.2f"]. *)
Definition two_digits (f : Z) : string :=
  (if (f <? 10)%Z then "0" else EmptyString) ++ Py.str_int f.

(** * Properties *)

(** ** Worked values *)

Example float_090 : Float.of_string "0.90" = Return (Finite (Qmake 90 100)).
Proof. reflexivity. Qed.

Example float_exp : Float.of_string " -1_0.5e-1 " = Return (Finite (Qopp (Qmake 105 100))).
Proof. reflexivity. Qed.

Example float_bad : Float.of_string "0.9]x" = Raise ValueError.
Proof. reflexivity. Qed.

Example format_sky : format_object_with_count "sky" 4 = Return "4 skies".
Proof. reflexivity. Qed.

Example format_key : format_object_with_count "key" 2 = Return "two keys".
Proof. reflexivity. Qed.

Example join3 : natural_join ["cat"; "dog"; "bird"] = "cat, dog, and bird".
Proof. reflexivity. Qed.

Example format_2f_examples :
  format_2f (Qmake 9 10) = "0.90" /\ format_2f (Qmake 12345 1000) = "12.34"
  /\ format_2f (Qmake 5 1000) = "0.00" /\ format_2f (Qmake 15 1000) = "0.02".
Proof. repeat split; reflexivity. Qed.

(** ** Strings *)

Lemma app_String x (a b : string) : String x a ++ b = String x (a ++ b).
Proof. reflexivity. Qed.

Lemma string_app_assoc (a b c : string) : (a ++ b) ++ c = a ++ (b ++ c).
Proof. induction a as [|x a IH]; [done|]. by rewrite !app_String, IH. Qed.

Lemma endswith_ends_with s suf : Py.endswith s suf = true <-> ends_with s suf.
Proof.
  split.
  - induction s as [|c s IH]; cbn [Py.endswith].
    + rewrite orb_false_r. intros H%String.eqb_eq. subst. by exists EmptyString.
    + intros [H%String.eqb_eq | H]%orb_true_iff.
      * subst. by exists EmptyString.
      * destruct (IH H) as [stem ->]. by exists (String c stem).
  - intros [stem ->]. induction stem as [|c stem IH].
    + change (EmptyString ++ suf) with suf.
      destruct suf; cbn [Py.endswith]; by rewrite String.eqb_refl.
    + change (String c stem ++ suf) with (String c (stem ++ suf)).
      cbn [Py.endswith]. by rewrite IH, orb_true_r.
Qed.

Lemma not_endswith_ends_with s suf : Py.endswith s suf = false <-> ~ ends_with s suf.
Proof. rewrite <- endswith_ends_with. by destruct (Py.endswith s suf). Qed.

Lemma second_last_app stem c d :
  Py.second_last (stem ++ String c (String d EmptyString)) = Return c.
Proof.
  induction stem as [|a stem IH]; [done|].
  simpl. rewrite IH. destruct stem as [|b [|b' stem]]; done.
Qed.

Lemma drop_last_app stem c d :
  Py.drop_last (stem ++ String c (String d EmptyString)) = stem ++ String c EmptyString.
Proof.
  induction stem as [|a stem IH]; [done|].
  simpl. rewrite IH. destruct stem; done.
Qed.

(** A name that ends in "y" and is not "y" itself has a character before
    that "y". *)
Lemma ends_y_split name :
  ends_with name "y" -> name <> "y" -> exists stem c, name = stem ++ String c "y".
Proof.
  intros [stem ->] Hne. induction stem as [|a stem IH]; [done|].
  destruct stem as [|b stem].
  - by exists EmptyString, a.
  - destruct IH as (stem' & c & Heq); [simpl; intros [= _ H]; by destruct stem|].
    exists (String a stem'), c.
    change (String a (String b stem) ++ "y") with (String a (String b stem ++ "y")).
    by rewrite Heq.
Qed.

Lemma in_aeiou_not_aeiou c : Py.in_aeiou c = false <-> not_aeiou c.
Proof.
  unfold not_aeiou.
  destruct c as [[] [] [] [] [] [] [] []]; vm_compute; split; try done;
    try (intros _; repeat split; discriminate); intuition congruence.
Qed.

Lemma in_aeiou_lower_vowel c : Py.in_aeiou (Py.lower_char c) = true <-> vowel_letter c.
Proof.
  destruct c as [[] [] [] [] [] [] [] []]; vm_compute; split; try done;
    intuition congruence.
Qed.

Lemma sibilant_test name :
  Py.endswith name "s" || Py.endswith name "sh" || Py.endswith name "ch"
  || Py.endswith name "x" || Py.endswith name "z" = true <-> sibilant_ending name.
Proof.
  unfold sibilant_ending. rewrite !orb_true_iff, !endswith_ends_with. tauto.
Qed.

Lemma ends_y_not_sibilant stem c : ~ sibilant_ending (stem ++ String c "y").
Proof.
  assert (Hlast : forall a b s t u, s ++ String a EmptyString = t ++ String b u ->
                    u = EmptyString -> a = b).
  { intros a b s. induction s as [|x s IH]; intros [|y t] u Heq ->; simpl in Heq.
    - by injection Heq.
    - injection Heq as _ Heq. by destruct t.
    - injection Heq as _ Heq. by destruct s.
    - injection Heq as _ Heq. by eapply IH. }
  assert (Hy : forall suf a, ends_with (stem ++ String c "y") (suf ++ String a EmptyString) ->
                 a = "y"%char).
  { intros suf a [t Heq].
    assert (Heq' : (stem ++ String c EmptyString) ++ "y" = (t ++ suf) ++ String a EmptyString).
    { rewrite !string_app_assoc. exact Heq. }
    symmetry. by eapply (Hlast "y"%char a). }
  intros [H|[H|[H|[H|H]]]].
  - by specialize (Hy EmptyString "s"%char H).
  - by specialize (Hy "s" "h"%char H).
  - by specialize (Hy "c" "h"%char H).
  - by specialize (Hy EmptyString "x"%char H).
  - by specialize (Hy EmptyString "z"%char H).
Qed.

(** The plural computed by the formatter, when its look at [name[-2]]
    does not fail. *)
Lemma plural_name_rule name :
  name <> "y" ->
  exists plural,
    plural_with not_aeiou name plural /\
    (if Py.endswith name "s" || Py.endswith name "sh" || Py.endswith name "ch"
        || Py.endswith name "x" || Py.endswith name "z"
     then Return (name ++ "es")
     else if Py.endswith name "y"
     then let! c := Py.second_last name in
          if negb (Py.in_aeiou c) then Return (Py.drop_last name ++ "ies")
          else Return (name ++ "s")
     else Return (name ++ "s")) = Return plural.
Proof.
  intros Hy.
  destruct (_ || _) eqn:Hsib.
  { exists (name ++ "es"). split; [|done]. constructor. by apply sibilant_test. }
  assert (Hns : ~ sibilant_ending name).
  { rewrite <- sibilant_test. by rewrite Hsib. }
  destruct (Py.endswith name "y") eqn:Hey.
  - apply endswith_ends_with in Hey.
    destruct (ends_y_split name Hey Hy) as (stem & c & ->).
    rewrite second_last_app. cbn [bind].
    destruct (Py.in_aeiou c) eqn:Hc; cbn [negb].
    + exists ((stem ++ String c "y") ++ "s"). split; [|done].
      apply plural_s; [done|]. intros stem' c' Heq Hcons.
      assert (c' = c) as ->.
      { clear -Heq. revert stem' Heq.
        induction stem as [|a stem IH]; intros [|b stem'] Heq; simpl in Heq.
        - by injection Heq.
        - injection Heq as _ Heq. by destruct stem' as [|? [|? ?]].
        - injection Heq as _ Heq. by destruct stem as [|? [|? ?]].
        - injection Heq as _ Heq. by eapply IH. }
      apply in_aeiou_not_aeiou in Hcons. congruence.
    + exists (stem ++ String c "ies"). split.
      * constructor. by apply in_aeiou_not_aeiou.
      * rewrite drop_last_app. f_equal. by rewrite string_app_assoc.
  - exists (name ++ "s"). split; [|done].
    apply plural_s; [done|]. intros stem c -> _.
    apply not_endswith_ends_with in Hey. apply Hey.
    exists (stem ++ String c EmptyString). by rewrite string_app_assoc.
Qed.

(** ** The class+count formatter *)

Lemma format_unfold name count plural :
  (if Py.endswith name "s" || Py.endswith name "sh" || Py.endswith name "ch"
      || Py.endswith name "x" || Py.endswith name "z"
   then Return (name ++ "es")
   else if Py.endswith name "y"
   then let! c := Py.second_last name in
        if negb (Py.in_aeiou c) then Return (Py.drop_last name ++ "ies")
        else Return (name ++ "s")
   else Return (name ++ "s")) = Return plural ->
  format_object_with_count name count =
    if (count =? 1)%Z then
      let! c := Py.first name in
      if Py.in_aeiou (Py.lower_char c) then Return ("an " ++ name) else Return ("a " ++ name)
    else if (count =? 2)%Z then Return ("two " ++ plural)
    else if (count =? 3)%Z then Return ("three " ++ plural)
    else Return (Py.str_int count ++ " " ++ plural).
Proof. intros H. unfold format_object_with_count. by rewrite H. Qed.

(** On every input but the name "y", and the empty name with count 1, the
    formatter returns a text built by the rule as the code reads it. *)
Lemma format_by_rule name count :
  name <> "y" -> (name = EmptyString -> count <> 1%Z) ->
  exists plural text,
    format_object_with_count name count = Return text
    /\ plural_with not_aeiou name plural
    /\ phrase_of name plural count text.
Proof.
  intros Hy Hempty.
  destruct (plural_name_rule name Hy) as (plural & Hplural & Hcode).
  exists plural. rewrite (format_unfold _ _ _ Hcode).
  destruct (Z.eqb_spec count 1) as [->|H1].
  - destruct name as [|c rest]; [by destruct Hempty|]. cbn [Py.first bind].
    destruct (Py.in_aeiou (Py.lower_char c)) eqn:Hc; eexists; (split; [reflexivity|]);
      (split; [done|]).
    + eapply phrase_an; [done|]. by apply in_aeiou_lower_vowel.
    + eapply phrase_a; [done|]. rewrite <- in_aeiou_lower_vowel. by rewrite Hc.
  - destruct (Z.eqb_spec count 2) as [->|H2];
      [eexists; split; [reflexivity|]; split; [done|constructor]|].
    destruct (Z.eqb_spec count 3) as [->|H3];
      [eexists; split; [reflexivity|]; split; [done|constructor]|].
    eexists. split; [reflexivity|]. split; [done|]. by constructor.
Qed.

(** A consonant is never a lower-case vowel. *)
Lemma consonant_not_aeiou c : consonant c -> not_aeiou c.
Proof.
  intros [_ Hvowel]. unfold not_aeiou, vowel_letter in *.
  repeat split; intros ->; apply Hvowel; simpl; auto 12.
Qed.

(** Where the character before a trailing y is a consonant or a
    lower-case vowel, the code's plural is the plural of the
    specification. *)
Lemma plural_agrees name plural :
  plain_before_y name -> plural_with not_aeiou name plural -> plural_of name plural.
Proof.
  intros Hplain Hcode. destruct Hcode as [name Hsib|stem c Hc|name Hns Hy].
  - by apply plural_es.
  - apply plural_ies. destruct (Hplain stem c eq_refl) as [Hcons|Hvowel]; [done|].
    destruct Hc as (Ha & He & Hi & Ho & Hu). simpl in Hvowel.
    destruct Hvowel as [<-|[<-|[<-|[<-|[<-|[]]]]]]; done.
  - apply plural_s; [done|]. intros stem c Heq Hcons.
    apply (Hy stem c Heq). by apply consonant_not_aeiou.
Qed.

Lemma ends_Ay stem c : stem ++ String c "y" = "Ay" -> stem = EmptyString /\ c = "A"%char.
Proof.
  destruct stem as [|a [|b stem]]; simpl; intros Heq.
  - by injection Heq as ->.
  - injection Heq as _ Heq. discriminate.
  - injection Heq as _ _ Heq. by destruct stem.
Qed.

(** C6, as stated, fails: on the name "y" the formatter raises instead of
    appending "s", and after the upper-case vowel of "Ay" it replaces the
    y by "ies", where the rule of the specification gives "Ays" and
    nothing else. *)
Lemma format_rule_as_stated_fails :
  format_object_with_count "y" 2 = Raise IndexError
  /\ format_object_with_count "Ay" 2 = Return "two Aies"
  /\ plural_of "Ay" "Ays"
  /\ ~ plural_of "Ay" "Aies".
Proof.
  assert (Hvowel : ~ consonant "A"%char).
  { intros [_ Hnot]. apply Hnot. unfold vowel_letter. simpl. auto 12. }
  split; [reflexivity|]. split; [reflexivity|]. split.
  - apply (plural_s consonant "Ay").
    + intros [[s H]|[[s H]|[[s H]|[[s H]|[s H]]]]];
        destruct s as [|a [|b [|c s]]]; simpl in H; try discriminate;
        injection H as _ _ H; by destruct s.
    + intros stem c Heq. destruct (ends_Ay stem c (eq_sym Heq)) as [_ ->]. exact Hvowel.
  - intros Hplural. inversion Hplural as [|stem c Hc Hname|].
    destruct (ends_Ay stem c Hname) as [_ ->]. by apply Hvowel.
Qed.

(** C6, amended.  format("box", 2) = "two boxes", format("city", 3) =
    "three cities", format("apple", 1) = "an apple", format("dog", 5) =
    "5 dogs"; and for every name and count on which the formatter returns
    (the name is not "y", and is not empty when the count is 1) and in
    which the character before a trailing y is a consonant or a lower-case
    vowel, the text is built by the stated rule: the plural appends "es"
    after s, sh, ch, x, z, replaces the y of a trailing consonant+y by
    "ies" and appends "s" otherwise; count 1 takes "an" before a vowel
    letter and "a" otherwise, counts 2 and 3 are spelled out, any other
    count is written in digits.  A consonant is a letter other than a, e,
    i, o, u in either case. *)
Theorem format_object_with_count_rule :
  format_object_with_count "box" 2 = Return "two boxes"
  /\ format_object_with_count "city" 3 = Return "three cities"
  /\ format_object_with_count "apple" 1 = Return "an apple"
  /\ format_object_with_count "dog" 5 = Return "5 dogs"
  /\ forall name count,
       name <> "y" -> (name = EmptyString -> count <> 1%Z) ->
       plain_before_y name ->
       exists plural text,
         format_object_with_count name count = Return text
         /\ plural_of name plural
         /\ phrase_of name plural count text.
Proof.
  repeat split; try reflexivity. intros name count Hy Hempty Hplain.
  destruct (format_by_rule name count Hy Hempty) as (plural & text & Htext & Hplural & Hphrase).
  exists plural, text. split; [done|]. split; [by apply plural_agrees|done].
Qed.

Lemma format_object_with_count_rule_witness :
  exists plural text,
    format_object_with_count "sky" 2 = Return text
    /\ plural_of "sky" plural /\ phrase_of "sky" plural 2 text.
Proof.
  apply (proj2 (proj2 (proj2 (proj2 format_object_with_count_rule))) "sky" 2%Z).
  - discriminate.
  - discriminate.
  - intros stem c Heq. left.
    destruct stem as [|a [|b stem]]; simpl in Heq.
    + by injection Heq.
    + injection Heq as _ <-. split; [left; change (nat_of_ascii "k") with 107%nat; lia|].
      unfold vowel_letter. simpl. intuition discriminate.
    + injection Heq as _ _ Heq. by destruct stem as [|d [|e stem]].
Defined.

(** C10. The formatter returns a text for every name of at least two
    characters and every count; it raises IndexError on the name "y"
    whatever the count, and on the empty name when the count is 1. *)
Theorem format_object_with_count_defined :
  (forall name count,
      (2 <= String.length name)%nat ->
      exists text, format_object_with_count name count = Return text)
  /\ (forall count, format_object_with_count "y" count = Raise IndexError)
  /\ format_object_with_count EmptyString 1 = Raise IndexError.
Proof.
  split; [|split; [|reflexivity]].
  - intros name count Hlen.
    destruct (format_by_rule name count) as (plural & text & Htext & _).
    + intros ->. simpl in Hlen. lia.
    + intros ->. simpl in Hlen. lia.
    + by exists text.
  - intros count. reflexivity.
Qed.

Lemma format_object_with_count_defined_witness :
  exists text, format_object_with_count "box" 7 = Return text.
Proof.
  apply (proj1 format_object_with_count_defined "box" 7%Z). simpl. lia.
Defined.

(** ** The speech summary *)

Ltac by_evaluation :=
  lazymatch goal with
  | |- @eq ?T _ ?r => vm_cast_no_check (@eq_refl T r)
  end.

(** C5. The three detections (cat, front, 0.9), (cat, front, 0.8) and
    (dog, left, 0.5), written as the pipeline writes them, are summarised by
    the sentence "in front of you, there's two cats, while to your left,
    you'll find a dog."; the semantic set holds (cat, front) and
    (dog, left). *)
Theorem end_to_end_summary :
  map info_string scenario_detections
  = ["cat (front) [0.90]"; "cat (front) [0.80]"; "dog (left) [0.50]"]
  /\ generate_speech_summary_from_detections_strings (map info_string scenario_detections)
     = Return (Some "in front of you, there's two cats, while to your left, you'll find a dog.",
               {[ ("cat", "front"); ("dog", "left") ]}).
Proof. split; [reflexivity|by_evaluation]. Qed.

(** ** The two confidence thresholds *)

(** C2, as stated, fails: 0.30 is not at least 0.37. *)
Lemma speech_threshold_not_above_detection_threshold :
  ~ (CONF_THRESHOLD <= SPEECH_CONF_THRESHOLD)%Q.
Proof. unfold CONF_THRESHOLD, SPEECH_CONF_THRESHOLD, Qle. simpl. lia. Qed.

(** C2, amended. The speech threshold (0.30) is strictly below the
    detection threshold (0.37), so the speech filter is the laxer of the
    two: a score that passes the detection filter ([m_s > CONF_THRESHOLD])
    is never dropped by the speech filter ([score < SPEECH_CONF_THRESHOLD]),
    neither as it is nor as printed with two decimals. *)
Theorem speech_threshold_below_detection_threshold :
  (SPEECH_CONF_THRESHOLD < CONF_THRESHOLD)%Q
  /\ forall m_s : Q,
       Qltb CONF_THRESHOLD m_s = true ->
       Float.ltb (Finite m_s) SPEECH_CONF_THRESHOLD = false
       /\ Float.ltb (Finite (round_2f m_s)) SPEECH_CONF_THRESHOLD = false.
Proof.
  split; [unfold CONF_THRESHOLD, SPEECH_CONF_THRESHOLD, Qlt; simpl; lia|].
  intros m_s H. unfold Qltb in H. apply negb_true_iff in H.
  assert (Hlt : (CONF_THRESHOLD < m_s)%Q).
  { apply Qnot_le_lt. intros Hle. apply Qle_bool_iff in Hle. congruence. }
  clear H. unfold Float.ltb. rewrite !negb_false_iff, !Qle_bool_iff. split.
  - unfold CONF_THRESHOLD, SPEECH_CONF_THRESHOLD in *. lra.
  - assert (Hh : (37 <= hundredths m_s)%Z).
    { unfold hundredths, round_half_even, CONF_THRESHOLD, Qlt in *.
      destruct m_s as [n d]. simpl in *.
      set (N := (n * 100)%Z). set (D := Zpos (d * 1)).
      assert (HD : (0 < D)%Z) by (unfold D; lia).
      assert (HN : (37 * D < N)%Z) by (unfold N, D; lia).
      assert (Hfl : (37 <= N / D)%Z) by (apply Z.div_le_lower_bound; lia).
      repeat case_match; lia. }
    unfold round_2f, SPEECH_CONF_THRESHOLD, Qle. simpl. lia.
Qed.

Lemma speech_threshold_below_detection_threshold_witness :
  Float.ltb (Finite (Qmake 38 100)) SPEECH_CONF_THRESHOLD = false
  /\ Float.ltb (Finite (round_2f (Qmake 38 100))) SPEECH_CONF_THRESHOLD = false.
Proof.
  apply (proj2 speech_threshold_below_detection_threshold (Qmake 38 100)).
  reflexivity.
Defined.

(** ** The announcement state machine *)

Lemma Qltb_lt x y : Qltb x y = true <-> (x < y)%Q.
Proof.
  unfold Qltb. rewrite negb_true_iff. split.
  - intros H. apply Qnot_le_lt. intros Hle. apply Qle_bool_iff in Hle. congruence.
  - intros H. destruct (Qle_bool y x) eqn:E; [|done].
    apply Qle_bool_iff in E. lra.
Qed.

Lemma Qltb_ge x y : Qltb x y = false <-> (y <= x)%Q.
Proof. unfold Qltb. rewrite negb_false_iff. apply Qle_bool_iff. Qed.

Lemma nonempty_true (s : SemanticSet) : nonempty s = true <-> s <> ∅.
Proof. unfold nonempty. rewrite negb_true_iff, bool_decide_eq_false. done. Qed.

Lemma nonempty_false (s : SemanticSet) : nonempty s = false <-> s = ∅.
Proof. unfold nonempty. rewrite negb_false_iff, bool_decide_eq_true. done. Qed.

Lemma announce_speech g text s now :
  snd (announce g text s now) = speech_for_this_response g text.
Proof.
  unfold announce. destruct (speech_for_this_response g text); [|done].
  by destruct (commits _ _ _ _).
Qed.

Lemma announce_suppressed g text s now :
  commits g (speech_for_this_response g text) s now = false ->
  fst (announce g text s now) = g.
Proof.
  unfold announce. intros H. destruct (speech_for_this_response g text); [|done].
  by rewrite H.
Qed.

Lemma announce_committed g text s now :
  commits g (speech_for_this_response g text) s now = true ->
  exists candidate,
    speech_for_this_response g text = Some candidate
    /\ fst (announce g text s now)
       = set_announcement g candidate
           (if String.eqb candidate "Scene clear." then ∅ else s) now.
Proof.
  unfold announce. intros H.
  destruct (speech_for_this_response g text) as [candidate|] eqn:E.
  - rewrite H. by exists candidate.
  - unfold commits, make_new_announcement in H. done.
Qed.

(** A summary text that is neither empty nor "Scene clear." is the
    candidate, and should be announced exactly when the semantic set
    changed or nothing had been announced. *)
Lemma summary_candidate g text s :
  text <> EmptyString -> text <> "Scene clear." ->
  speech_for_this_response g (Some text) = Some text
  /\ make_new_announcement g (Some text) s
     = negb (bool_decide (s = last_semantic_summary_set g))
       || negb (nonempty (last_semantic_summary_set g)).
Proof.
  intros Hne Hsc. unfold speech_for_this_response, make_new_announcement, truthy.
  apply String.eqb_neq in Hne, Hsc. by rewrite Hne, Hsc.
Qed.

Lemma singleton_nonempty (x : string * string) : ({[ x ]} : SemanticSet) <> ∅.
Proof. set_solver. Qed.

(** C3, as stated, fails twice.  A repeated observation one time unit
    after a first one that the cooldown suppressed is committed once the
    cooldown has run out in between; and with scene-clear announcements
    off, an empty frame (a semantic set different from the announced one)
    does not commit, however long after the last announcement. *)
Lemma cooldown_scenarios_as_stated_fail :
  (let g1 := fst (announce dog_announced (Some cat_summary) cat_set (Qmake 209 2)) in
   let g2 := fst (announce g1 (Some cat_summary) cat_set (Qmake 211 2)) in
   cat_set <> ∅
   /\ g1 = dog_announced
   /\ last_announcement_text_generation_time g2 = Qmake 211 2
   /\ last_announcement_text_generation_time g2 <> last_announcement_text_generation_time g1)
  /\ ((∅ : SemanticSet) <> last_semantic_summary_set dog_announced_quiet
      /\ (TTS_ANNOUNCEMENT_COOLDOWN
          < inject_Z 106 - last_announcement_text_generation_time dog_announced_quiet)%Q
      /\ announce dog_announced_quiet None ∅ (inject_Z 106) = (dog_announced_quiet, None)).
Proof.
  split; [|split; [|split]].
  - assert (H1 : fst (announce dog_announced (Some cat_summary) cat_set (Qmake 209 2))
                 = dog_announced) by by_evaluation.
    assert (H2 : last_announcement_text_generation_time
                   (fst (announce dog_announced (Some cat_summary) cat_set (Qmake 211 2)))
                 = Qmake 211 2) by by_evaluation.
    cbv zeta. rewrite H1, H2.
    split; [apply singleton_nonempty|]. split; [reflexivity|]. split; [reflexivity|].
    discriminate.
  - symmetry. apply singleton_nonempty.
  - vm_compute. reflexivity.
  - by_evaluation.
Qed.

(** Every call either commits, and then both conditions hold and the three
    fields are assigned, or leaves the globals as they were. *)
Lemma announce_cases g text s now :
  let speech := speech_for_this_response g text in
  (make_new_announcement g speech s = true
   /\ (TTS_ANNOUNCEMENT_COOLDOWN < now - last_announcement_text_generation_time g)%Q
   /\ exists candidate,
        speech = Some candidate
        /\ fst (announce g text s now)
           = set_announcement g candidate
               (if String.eqb candidate "Scene clear." then ∅ else s) now)
  \/ ((make_new_announcement g speech s = false
       \/ (now - last_announcement_text_generation_time g <= TTS_ANNOUNCEMENT_COOLDOWN)%Q)
      /\ fst (announce g text s now) = g).
Proof.
  intros speech. destruct (commits g speech s now) eqn:Hc.
  - left. pose proof (announce_committed _ _ _ _ Hc) as Hset.
    unfold commits in Hc. apply andb_true_iff in Hc as [Hm Ht].
    apply Qltb_lt in Ht. done.
  - right. split; [|by apply announce_suppressed].
    unfold commits in Hc. apply andb_false_iff in Hc as [Hm|Ht]; [by left|].
    right. by apply Qltb_ge in Ht.
Qed.

(** C3, amended.  (1) When a call commits, a second call made at most the
    cooldown later (so also 1 time unit later, cooldown 5), whatever it
    observes and in particular the identical non-empty semantic set, does
    not commit and changes none of the three fields.  (2) A call that
    carries a summary text with a semantic set different from the last
    announced one, made more than the cooldown after the last committed
    announcement, commits: it assigns the text, the set and the time.
    (3) In general a call either commits, with "should announce" true and
    [now - last time > cooldown], or leaves the globals unchanged. *)
Theorem cooldown_suppression :
  (forall g text1 s1 now text2 s2 later,
      commits g (speech_for_this_response g text1) s1 now = true ->
      (later - now <= TTS_ANNOUNCEMENT_COOLDOWN)%Q ->
      let g1 := fst (announce g text1 s1 now) in
      commits g1 (speech_for_this_response g1 text2) s2 later = false
      /\ fst (announce g1 text2 s2 later) = g1)
  /\ (forall g text s now,
        text <> EmptyString -> text <> "Scene clear." ->
        s <> last_semantic_summary_set g ->
        (TTS_ANNOUNCEMENT_COOLDOWN < now - last_announcement_text_generation_time g)%Q ->
        announce g (Some text) s now = (set_announcement g text s now, Some text))
  /\ (forall g text s now,
        let speech := speech_for_this_response g text in
        (make_new_announcement g speech s = true
         /\ (TTS_ANNOUNCEMENT_COOLDOWN < now - last_announcement_text_generation_time g)%Q
         /\ exists candidate,
              speech = Some candidate
              /\ fst (announce g text s now)
                 = set_announcement g candidate
                     (if String.eqb candidate "Scene clear." then ∅ else s) now)
        \/ ((make_new_announcement g speech s = false
             \/ (now - last_announcement_text_generation_time g
                 <= TTS_ANNOUNCEMENT_COOLDOWN)%Q)
            /\ fst (announce g text s now) = g)).
Proof.
  split; [|split].
  - intros g text1 s1 now text2 s2 later Hc Hlater g1.
    destruct (announce_committed _ _ _ _ Hc) as (candidate & _ & Hg1).
    assert (Hoff : commits g1 (speech_for_this_response g1 text2) s2 later = false).
    { unfold commits. apply andb_false_iff. right. apply Qltb_ge.
      unfold g1. rewrite Hg1. simpl. done. }
    split; [done|]. by apply announce_suppressed.
  - intros g text s now Hne Hsc Hs Ht.
    destruct (summary_candidate g text s Hne Hsc) as [Hsp Hmk].
    unfold announce, commits. rewrite Hsp, Hmk.
    apply Qltb_lt in Ht. rewrite Ht.
    apply String.eqb_neq in Hsc. rewrite Hsc.
    rewrite (bool_decide_eq_false_2 _ Hs). done.
  - apply announce_cases.
Qed.

Lemma cooldown_suppression_witness :
  (let g1 := fst (announce dog_announced (Some cat_summary) cat_set (inject_Z 106)) in
   commits g1 (speech_for_this_response g1 (Some cat_summary)) cat_set (inject_Z 107) = false
   /\ fst (announce g1 (Some cat_summary) cat_set (inject_Z 107)) = g1)
  /\ announce dog_announced (Some cat_summary) cat_set (inject_Z 106)
     = (set_announcement dog_announced cat_summary cat_set (inject_Z 106), Some cat_summary).
Proof.
  split.
  - apply (proj1 cooldown_suppression dog_announced (Some cat_summary) cat_set (inject_Z 106)
             (Some cat_summary) cat_set (inject_Z 107)).
    + vm_compute. reflexivity.
    + vm_compute. discriminate.
  - apply (proj1 (proj2 cooldown_suppression) dog_announced cat_summary cat_set (inject_Z 106)).
    + discriminate.
    + discriminate.
    + apply (bool_decide_eq_false_1 (cat_set = last_semantic_summary_set dog_announced)).
      vm_compute. reflexivity.
    + vm_compute. reflexivity.
Defined.

(** ** Scene clear *)

Lemma summary_of_no_detections detection_strings :
  no_detections detection_strings ->
  generate_speech_summary_from_detections_strings detection_strings = Return (None, ∅).
Proof. intros [-> | ->]; reflexivity. Qed.

Lemma scene_clear_candidate g :
  announce_scene_clear g = true -> last_semantic_summary_set g <> ∅ ->
  speech_for_this_response g None = Some "Scene clear."
  /\ make_new_announcement g (Some "Scene clear.") ∅ = true.
Proof.
  intros Ha Hs%nonempty_true.
  unfold speech_for_this_response, make_new_announcement. simpl. by rewrite Ha, Hs.
Qed.

Lemma no_candidate g :
  announce_scene_clear g = false \/ last_semantic_summary_set g = ∅ ->
  forall now, announce g None ∅ now = (g, None).
Proof.
  intros H now. unfold announce, speech_for_this_response. simpl.
  destruct H as [-> | ->%nonempty_false]; [done|]. by rewrite andb_false_r.
Qed.

(** C4. With scene-clear announcements on and a non-empty previous
    semantic set (such as {(cat, front)}), a frame without detections has
    no summary and the empty semantic set, and the machine answers "Scene
    clear.".  When that announcement is committed the three fields become
    "Scene clear.", the empty set and the current time; from then on a
    further frame without detections, at any time, yields no text and
    changes nothing. *)
Theorem scene_clear_transition :
  forall g detection_strings now,
    announce_scene_clear g = true ->
    last_semantic_summary_set g <> ∅ ->
    no_detections detection_strings ->
    generate_speech_summary_from_detections_strings detection_strings = Return (None, ∅)
    /\ snd (announce g None ∅ now) = Some "Scene clear."
    /\ (fst (announce g None ∅ now) = g
        \/ fst (announce g None ∅ now) = set_announcement g "Scene clear." ∅ now)
    /\ ((TTS_ANNOUNCEMENT_COOLDOWN < now - last_announcement_text_generation_time g)%Q ->
        let g' := fst (announce g None ∅ now) in
        g' = set_announcement g "Scene clear." ∅ now
        /\ last_semantic_summary_set g' = ∅
        /\ forall detection_strings' now',
             no_detections detection_strings' ->
             generate_speech_summary_from_detections_strings detection_strings'
               = Return (None, ∅)
             /\ announce g' None ∅ now' = (g', None)).
Proof.
  intros g detection_strings now Ha Hs Hnone.
  destruct (scene_clear_candidate g Ha Hs) as [Hsp Hmk].
  split; [by apply summary_of_no_detections|].
  split; [by rewrite announce_speech|].
  assert (Hstep : forall b,
             commits g (Some "Scene clear.") ∅ now = b ->
             fst (announce g None ∅ now)
             = if b then set_announcement g "Scene clear." ∅ now else g).
  { intros b Hb. unfold announce. rewrite Hsp, Hb. by destruct b. }
  split.
  - destruct (commits g (Some "Scene clear.") ∅ now) eqn:Hc;
      rewrite (Hstep _ eq_refl); auto.
  - intros Ht g'. apply Qltb_lt in Ht.
    assert (Hc : commits g (Some "Scene clear.") ∅ now = true).
    { unfold commits. by rewrite Hmk, Ht. }
    assert (Hg' : g' = set_announcement g "Scene clear." ∅ now).
    { unfold g'. by rewrite (Hstep _ Hc). }
    split; [done|]. split; [by rewrite Hg'|].
    intros strings' now' Hnone'. split; [by apply summary_of_no_detections|].
    apply no_candidate. right. by rewrite Hg'.
Qed.

Lemma scene_clear_transition_witness :
  snd (announce dog_announced None ∅ (inject_Z 106)) = Some "Scene clear."
  /\ let g' := fst (announce dog_announced None ∅ (inject_Z 106)) in
     last_semantic_summary_set g' = ∅
     /\ announce g' None ∅ (inject_Z 120) = (g', None).
Proof.
  destruct (scene_clear_transition dog_announced [] (inject_Z 106))
    as (_ & Hspeech & _ & Hcommit).
  - reflexivity.
  - apply singleton_nonempty.
  - by left.
  - split; [exact Hspeech|].
    destruct Hcommit as (_ & Hset & Hnext); [vm_compute; reflexivity|].
    split; [exact Hset|]. apply (Hnext []). by left.
Defined.

(** ** Frames whose processing fails *)

Lemma decode_short_rows conf_threshold num_cls proposals :
  Forall (fun prop => (prop_length prop < 4 + num_cls)%nat) proposals ->
  decode conf_threshold num_cls proposals = Return [].
Proof.
  induction 1 as [|prop rest Hshort _ IH]; [done|].
  cbn [decode]. unfold decode_row.
  apply Nat.ltb_lt in Hshort. rewrite Hshort. cbn [bind]. by rewrite IH.
Qed.

(** What a frame that fails inside the pipeline reports: no detection,
    and at most one message, which the summariser discards. *)
Lemma failed_inside_report g frame w h :
  onnx_session g = true ->
  failed_inside g frame ->
  exists detection_strings,
    perform_inference_and_postprocess g frame w h = (detection_strings, [])
    /\ generate_speech_summary_from_detections_strings detection_strings = Return (None, ∅).
Proof.
  intros Hsession Hfail. unfold perform_inference_and_postprocess. rewrite Hsession.
  destruct (preprocess_frame_for_onnx _ _ _) as [[[scale dw] dh]|] eqn:Hpre;
    [|by exists []].
  destruct (Qeq_bool scale (inject_Z 0)); [by exists []|]. cbn [negb].
  destruct Hfail as [Hgeo | Hrun | proposals e Hrun Hraise | proposals Hrun Hshort].
  - congruence.
  - rewrite Hrun. by exists ["Infer Error."].
  - rewrite Hrun. unfold postprocess. rewrite Hraise. by exists ["Infer Error."].
  - rewrite Hrun. unfold postprocess, candidate_lists.
    rewrite (decode_short_rows _ _ _ Hshort). simpl.
    by exists ["No objects (Conf:0.37,NMS:0.35)."].
Qed.

Example empty_table_fails_inside :
  failed_inside (set_class_names dog_announced []) sample_frame
  /\ failed_inside dog_announced
       {| vid_height := 640; vid_width := 640; run_outputs := Some nan_proposals |}.
Proof.
  split.
  - by apply (postprocessing_error _ _ sample_proposals ValueError).
  - by apply (postprocessing_error _ _ nan_proposals ValueError).
Qed.

(** Such a frame goes through the state machine as a frame without
    detections does. *)
Lemma failed_inside_route g req frame now :
  detection_active g = true -> onnx_session g = true ->
  upload req = Readable frame -> failed_inside g frame ->
  exists detection_strings,
    process_image_route g req now
    = (fst (announce g None ∅ now),
       if draw_boxes req && encodes req then Jpeg
       else Detections detection_strings [] (snd (announce g None ∅ now))).
Proof.
  intros Hactive Hsession Hup Hfail.
  destruct (failed_inside_report g frame (vid_width frame) (vid_height frame) Hsession Hfail)
    as (strings & Hperf & Hgen).
  exists strings. unfold process_image_route.
  rewrite Hactive, Hup, Hsession, Hperf, Hgen. cbn [negb].
  by destruct (announce g None ∅ now).
Qed.

Lemma rejected_route g req now :
  detection_active g = true -> rejected g (upload req) ->
  exists response,
    process_image_route g req now = (g, response) /\ speech_output_of response = None.
Proof.
  intros Hactive Hrej. unfold process_image_route. rewrite Hactive. cbn [negb].
  destruct Hrej as [ | | |frame Hsession]; try by eexists.
  rewrite Hsession. by eexists.
Qed.

(** C1, as stated, fails: after a dog was announced, a frame on which the
    detector call raises is answered with "Scene clear." and, the cooldown
    being over, all three fields are rewritten. *)
Lemma failed_frame_announces_scene_clear :
  failed_inside dog_announced failing_frame
  /\ process_image_route dog_announced
       {| upload := Readable failing_frame; draw_boxes := false; encodes := true |}
       (inject_Z 200)
     = (set_announcement dog_announced "Scene clear." ∅ (inject_Z 200),
        Detections ["Infer Error."] [] (Some "Scene clear.")).
Proof.
  split.
  - by apply inference_error.
  - by_evaluation.
Qed.

(** With scene-clear announcements on and something announced before, a
    frame that fails inside the pipeline gets the candidate "Scene clear."
    and the globals the state machine computes for an empty frame. *)
Lemma failed_frame_as_empty_frame g req frame now :
  upload req = Readable frame -> failed_inside g frame ->
  detection_active g = true -> onnx_session g = true ->
  announce_scene_clear g = true -> last_semantic_summary_set g <> ∅ ->
  fst (process_image_route g req now) = fst (announce g None ∅ now)
  /\ snd (announce g None ∅ now) = Some "Scene clear."
  /\ (draw_boxes req = false ->
      speech_output_of (snd (process_image_route g req now)) = Some "Scene clear.").
Proof.
  intros Hup Hfail Hactive Hsession Ha Hs.
  destruct (failed_inside_route g req frame now Hactive Hsession Hup Hfail)
    as (strings & ->).
  destruct (scene_clear_candidate g Ha Hs) as [Hsp _].
  cbn [fst snd]. rewrite announce_speech, Hsp.
  split; [done|]. split; [done|]. intros ->. done.
Qed.

(** C1, amended.  On a server whose detection is active, a request
    rejected before inference (no image, no file name, unreadable image,
    detector not loaded) leaves the globals as they were and carries no
    speech text; a frame that fails inside the pipeline (invalid geometry,
    the detector call or the post-processing raising so that only the
    error marker is reported, every proposal row too short) leaves the
    globals as they were and carries no speech text when scene-clear
    announcements are off or the last announced semantic set is empty.  A
    paused server reaches none of these errors: it leaves the globals as
    they were and answers 423 with the text "Detection is currently
    paused.". *)
Theorem failed_frame_effect :
  forall g req now,
    (detection_active g = true -> rejected g (upload req) ->
     exists response,
       process_image_route g req now = (g, response) /\ speech_output_of response = None)
    /\ (forall frame,
          detection_active g = true ->
          upload req = Readable frame -> failed_inside g frame ->
          announce_scene_clear g = false \/ last_semantic_summary_set g = ∅ ->
          fst (process_image_route g req now) = g
          /\ speech_output_of (snd (process_image_route g req now)) = None)
    /\ (detection_active g = false ->
        fst (process_image_route g req now) = g
        /\ speech_output_of (snd (process_image_route g req now))
           = Some "Detection is currently paused.").
Proof.
  intros g req now. split; [apply rejected_route|]. split.
  - intros frame Hactive Hup Hfail Hquiet.
    destruct (onnx_session g) eqn:Hsession;
      [|unfold process_image_route; by rewrite Hactive, Hup, Hsession].
    destruct (failed_inside_route g req frame now Hactive Hsession Hup Hfail)
      as (strings & ->).
    rewrite (no_candidate g Hquiet). cbn [fst snd]. split; [done|].
    by destruct (draw_boxes req && encodes req).
  - intros Hpaused. unfold process_image_route. by rewrite Hpaused.
Qed.

Lemma failed_frame_effect_witness :
  (exists response,
      process_image_route dog_announced
        {| upload := NoImageField; draw_boxes := false; encodes := true |} (inject_Z 200)
      = (dog_announced, response) /\ speech_output_of response = None)
  /\ fst (process_image_route dog_announced_quiet
            {| upload := Readable failing_frame; draw_boxes := false; encodes := true |}
            (inject_Z 200)) = dog_announced_quiet
  /\ speech_output_of
       (snd (process_image_route dog_announced_quiet
               {| upload := Readable failing_frame; draw_boxes := false; encodes := true |}
               (inject_Z 200))) = None.
Proof.
  split.
  - apply (proj1 (failed_frame_effect dog_announced
                    {| upload := NoImageField; draw_boxes := false; encodes := true |}
                    (inject_Z 200))).
    + reflexivity.
    + apply input_error_no_image.
  - apply (proj1 (proj2 (failed_frame_effect dog_announced_quiet
                    {| upload := Readable failing_frame; draw_boxes := false; encodes := true |}
                    (inject_Z 200))) failing_frame eq_refl eq_refl
                    (inference_error dog_announced_quiet failing_frame eq_refl)).
    by left.
Defined.

(** ** The suppressor *)

Lemma filter_all {A : Type} (f : A -> bool) (l : list A) :
  Forall (fun x => f x = true) l -> List.filter f l = l.
Proof. induction 1 as [|x l Hx _ IH]; simpl; [done|]. by rewrite Hx, IH. Qed.


Lemma Forall_filter {A : Type} (P : A -> Prop) (f : A -> bool) (l : list A) :
  Forall P l -> Forall P (List.filter f l).
Proof.
  induction 1 as [|x l Hx _ IH]; simpl; [constructor|].
  destruct (f x); [by constructor|done].
Qed.

Lemma Forall_filter_true {A : Type} (f : A -> bool) (l : list A) :
  Forall (fun x => f x = true) (List.filter f l).
Proof.
  induction l as [|x l IH]; simpl; [constructor|].
  destruct (f x) eqn:Hx; [by constructor|done].
Qed.

Lemma ForallOrdPairs_filter {A : Type} (R : A -> A -> Prop) (f : A -> bool) (l : list A) :
  ForallOrdPairs R l -> ForallOrdPairs R (List.filter f l).
Proof.
  induction 1 as [|x l Hx _ IH]; simpl; [constructor|].
  destruct (f x); [|done]. constructor; [by apply Forall_filter|done].
Qed.

Lemma ForallOrdPairs_map {A B : Type} (f : A -> B) (R : B -> B -> Prop) (l : list A) :
  ForallOrdPairs (fun a b => R (f a) (f b)) l <-> ForallOrdPairs R (map f l).
Proof.
  induction l as [|x l IH]; simpl.
  - split; constructor.
  - split; inversion 1; subst; constructor;
      try (by apply IH); by apply Forall_map.
Qed.

Lemma filter_length_bound {A : Type} (f : A -> bool) (l : list A) n :
  (List.length l <= n)%nat -> (List.length (List.filter f l) <= n)%nat.
Proof. pose proof (List.filter_length_le f l). lia. Qed.

Section SuppressorFacts.

Context {A : Type}.
Variable box : A -> Rect.
Variable conf : A -> Q.
Variable nms_threshold : Q.

Abbreviation greedy' := (greedy box nms_threshold).
Abbreviation keep b := (fun c => negb (suppressed_by box nms_threshold b c)).

(** Induction on the number of boxes still to visit. *)
Lemma greedy_ind (P : list A -> Prop) :
  P [] ->
  (forall b rest, P (List.filter (keep b) rest) -> P (b :: rest)) ->
  forall l, P l.
Proof.
  intros Hnil Hcons l.
  assert (H : forall n l, (List.length l <= n)%nat -> P l).
  { clear l. induction n as [|n IH]; intros [|b rest] Hlen; simpl in Hlen; try done; try lia.
    apply Hcons, IH, filter_length_bound. lia. }
  by apply (H (List.length l)).
Qed.

Lemma greedy_Forall (P : A -> Prop) l : Forall P l -> Forall P (greedy' l).
Proof.
  induction l as [|b rest IH] using greedy_ind; intros Hall.
  - by rewrite greedy_equation_1.
  - rewrite greedy_equation_2. inversion Hall; subst.
    constructor; [done|]. by apply IH, Forall_filter.
Qed.

Lemma greedy_ForallOrdPairs (R : A -> A -> Prop) l :
  ForallOrdPairs R l -> ForallOrdPairs R (greedy' l).
Proof.
  induction l as [|b rest IH] using greedy_ind; intros Hall.
  - rewrite greedy_equation_1. constructor.
  - rewrite greedy_equation_2. inversion Hall; subst. constructor.
    + by apply greedy_Forall, Forall_filter.
    + by apply IH, ForallOrdPairs_filter.
Qed.

(** No box that is kept suppresses a box kept after it. *)
Lemma greedy_apart l : pairwise_apart box nms_threshold (greedy' l).
Proof.
  induction l as [|b rest IH] using greedy_ind.
  - rewrite greedy_equation_1. constructor.
  - rewrite greedy_equation_2. constructor; [|done].
    apply greedy_Forall.
    eapply List.Forall_impl; [|apply Forall_filter_true].
    intros c Hc. by apply negb_true_iff in Hc.
Qed.

(** The loop keeps the whole of a list whose members do not suppress one
    another. *)
Lemma greedy_fixed l : pairwise_apart box nms_threshold l -> greedy' l = l.
Proof.
  induction 1 as [|b rest Hb _ IH]; [by rewrite greedy_equation_1|].
  rewrite greedy_equation_2, filter_all, IH; [done|].
  eapply List.Forall_impl; [|exact Hb]. intros c Hc. simpl in Hc. by rewrite Hc.
Qed.

Lemma greedy_idempotent l : greedy' (greedy' l) = greedy' l.
Proof. apply greedy_fixed, greedy_apart. Qed.


(** *** The stable descending sort *)

Lemma insert_desc_Forall (P : A -> Prop) x l :
  P x -> Forall P l -> Forall P (insert_desc conf x l).
Proof.
  intros Hx. induction 1 as [|y l Hy Hl IH]; simpl; [by repeat constructor|].
  destruct (Qle_bool (conf y) (conf x)); by repeat constructor.
Qed.

Lemma insert_desc_descending x l :
  descending conf l -> descending conf (insert_desc conf x l).
Proof.
  induction 1 as [|y l Hy Hl IH]; simpl; [by repeat constructor|].
  destruct (Qle_bool (conf y) (conf x)) eqn:Hle.
  - apply Qle_bool_iff in Hle. constructor; [|by constructor].
    constructor; [done|]. eapply List.Forall_impl; [|exact Hy].
    intros z Hz. simpl in Hz. lra.
  - constructor; [|done]. apply insert_desc_Forall; [|done].
    destruct (Qlt_le_dec (conf y) (conf x)) as [Hlt|Hge]; [|done].
    assert (Qle_bool (conf y) (conf x) = true) by (apply Qle_bool_iff; lra). congruence.
Qed.

Lemma sort_desc_descending l : descending conf (sort_desc conf l).
Proof.
  induction l as [|x l IH]; simpl; [constructor|]. by apply insert_desc_descending.
Qed.

Lemma insert_desc_head x l :
  Forall (fun y => (conf y <= conf x)%Q) l -> insert_desc conf x l = x :: l.
Proof.
  destruct 1 as [|y l Hy _]; simpl; [done|].
  apply Qle_bool_iff in Hy. by rewrite Hy.
Qed.

Lemma sort_desc_fixed l : descending conf l -> sort_desc conf l = l.
Proof.
  induction 1 as [|x l Hx _ IH]; simpl; [done|]. rewrite IH. by apply insert_desc_head.
Qed.

(** *** The confidence filter against the sort *)

Variable score_threshold : Q.

Abbreviation live := (fun c => Qltb score_threshold (conf c)).





End SuppressorFacts.

Lemma sort_desc_Forall {A : Type} (conf : A -> Q) (P : A -> Prop) l :
  Forall P l -> Forall P (sort_desc conf l).
Proof. induction 1; simpl; [constructor|]. by apply insert_desc_Forall. Qed.

Lemma suppress_Forall {A : Type} (box : A -> Rect) (conf : A -> Q) nt st (P : A -> Prop) l :
  Forall P l -> Forall P (suppress box conf nt st l).
Proof. intros Hl. by apply greedy_Forall, sort_desc_Forall, Forall_filter. Qed.

(** *** The suppressor does not look at the payload *)

Section SuppressorMap.

Context {A B : Type}.
Variable h : A -> B.
Variables (boxA : A -> Rect) (confA : A -> Q) (boxB : B -> Rect) (confB : B -> Q).
Hypothesis box_h : forall a, boxB (h a) = boxA a.
Hypothesis conf_h : forall a, confB (h a) = confA a.
Variables nms_threshold score_threshold : Q.

Lemma insert_desc_map x l :
  insert_desc confB (h x) (map h l) = map h (insert_desc confA x l).
Proof.
  induction l as [|y l IH]; simpl; [done|].
  rewrite !conf_h. destruct (Qle_bool (confA y) (confA x)); simpl; [done|]. by rewrite IH.
Qed.

Lemma sort_desc_map l : sort_desc confB (map h l) = map h (sort_desc confA l).
Proof. induction l as [|x l IH]; simpl; [done|]. by rewrite IH, insert_desc_map. Qed.

Lemma greedy_map l :
  greedy boxB nms_threshold (map h l) = map h (greedy boxA nms_threshold l).
Proof.
  induction l as [|b rest IH] using (greedy_ind boxA nms_threshold).
  - simpl. by rewrite !greedy_equation_1.
  - simpl. rewrite !greedy_equation_2. simpl. rewrite <- IH. do 2 f_equal.
    rewrite List.filter_map_swap. f_equal. apply List.filter_ext.
    intros c. unfold suppressed_by. by rewrite !box_h.
Qed.

Lemma suppress_map l :
  suppress boxB confB nms_threshold score_threshold (map h l)
  = map h (suppress boxA confA nms_threshold score_threshold l).
Proof.
  unfold suppress. rewrite List.filter_map_swap.
  rewrite (List.filter_ext _ (fun c => Qltb score_threshold (confA c)))
    by (intros c; by rewrite conf_h).
  by rewrite sort_desc_map, greedy_map.
Qed.

End SuppressorMap.

(** *** Indices and what they stand for *)

Lemma combine_seq_map {A B C : Type} (f : A -> B) (g : A -> C) (l : list A) k :
  combine (seq k (List.length (map f l))) (combine (map f l) (map g l))
  = map (fun ic => (fst ic, (f (snd ic), g (snd ic)))) (combine (seq k (List.length l)) l).
Proof.
  revert k. induction l as [|x l IH]; intros k; simpl; [done|]. by rewrite IH.
Qed.

Lemma map_snd_combine_seq {A : Type} (l : list A) k :
  map snd (combine (seq k (List.length l)) l) = l.
Proof. revert k. induction l as [|x l IH]; intros k; simpl; [done|]. by rewrite IH. Qed.

Lemma map_fst_combine_seq {A : Type} (l : list A) k :
  map fst (combine (seq k (List.length l)) l) = seq k (List.length l).
Proof. revert k. induction l as [|x l IH]; intros k; simpl; [done|]. by rewrite IH. Qed.

Lemma combine_seq_lookup {A : Type} (l : list A) k :
  Forall (fun ic => (k <= fst ic)%nat /\ l !! (fst ic - k)%nat = Some (snd ic))
         (combine (seq k (List.length l)) l).
Proof.
  revert k. induction l as [|x l IH]; intros k; simpl; constructor.
  - simpl. split; [lia|]. by rewrite Nat.sub_diag.
  - eapply List.Forall_impl; [|apply (IH (S k))].
    intros [i c] [Hle Hc]; simpl in *. split; [lia|].
    replace (i - k)%nat with (S (i - S k)) by lia. done.
Qed.

(** The indices NMSBoxes returns for the candidates of a frame, read back
    in the candidate list, are the candidates the Suppressor keeps. *)
Lemma NMSBoxes_candidates (cands : list Candidate) st nt :
  exists kept : list (nat * Candidate),
    NMSBoxes (map finite_cv_box cands) (map cand_conf cands) st nt = map fst kept
    /\ map snd kept = suppress finite_cv_box cand_conf nt st cands
    /\ Forall (fun ic => cands !! fst ic = Some (snd ic)) kept.
Proof.
  set (indexed := combine (seq 0 (List.length cands)) cands).
  exists (suppress (fun ic => finite_cv_box (snd ic)) (fun ic => cand_conf (snd ic)) nt st indexed).
  split; [|split].
  - unfold NMSBoxes. rewrite combine_seq_map. fold indexed.
    rewrite (suppress_map (fun ic : nat * Candidate => (fst ic, (finite_cv_box (snd ic), cand_conf (snd ic))))
               (fun ic => finite_cv_box (snd ic)) (fun ic => cand_conf (snd ic))) by done.
    rewrite List.map_map. done.
  - rewrite <- (suppress_map snd (fun ic : nat * Candidate => finite_cv_box (snd ic))
                  (fun ic => cand_conf (snd ic)) finite_cv_box cand_conf) by done.
    unfold indexed. by rewrite map_snd_combine_seq.
  - apply suppress_Forall. eapply List.Forall_impl; [|apply (combine_seq_lookup cands 0)].
    intros [i c] [_ Hc]; simpl in *. by rewrite Nat.sub_0_r in Hc.
Qed.

Section SuppressOutput.

Context {A : Type}.
Variable box : A -> Rect.
Variable conf : A -> Q.
Variables nms_threshold score_threshold : Q.

Abbreviation suppress' := (suppress box conf nms_threshold score_threshold).

Lemma suppress_live l :
  Forall (fun c => Qltb score_threshold (conf c) = true) (suppress' l).
Proof. apply greedy_Forall, sort_desc_Forall, Forall_filter_true. Qed.

Lemma suppress_descending l : descending conf (suppress' l).
Proof. apply greedy_ForallOrdPairs, sort_desc_descending. Qed.

Lemma suppress_apart l : pairwise_apart box nms_threshold (suppress' l).
Proof. apply greedy_apart. Qed.

(** The Suppressor keeps the whole of a list of boxes that are above the
    threshold, in descending order, and do not suppress one another. *)
Lemma suppress_fixed l :
  Forall (fun c => Qltb score_threshold (conf c) = true) l ->
  descending conf l -> pairwise_apart box nms_threshold l ->
  suppress' l = l.
Proof.
  intros Hlive Hdesc Hapart. unfold suppress.
  by rewrite filter_all, sort_desc_fixed, greedy_fixed.
Qed.

End SuppressOutput.

Lemma ForallOrdPairs_lookup {A : Type} (R : A -> A -> Prop) (l : list A) :
  ForallOrdPairs R l ->
  forall p q a b, (p < q)%nat -> l !! p = Some a -> l !! q = Some b -> R a b.
Proof.
  induction 1 as [|x l Hx _ IH]; intros p q a b Hpq Ha Hb; [done|].
  destruct q as [|q]; [lia|]. destruct p as [|p]; simpl in *.
  - injection Ha as <-. rewrite List.Forall_forall in Hx.
    apply Hx. apply list_elem_of_In. by eapply list_elem_of_lookup_2.
  - eapply (IH p q); [lia|done..].
Qed.

Lemma iou_comm a b : iou a b = iou b a.
Proof.
  unfold iou, intersection_area.
  rewrite (Z.min_comm (rect_x a + rect_w a)), (Z.max_comm (rect_x a)),
    (Z.min_comm (rect_y a + rect_h a)), (Z.max_comm (rect_y a)),
    (Z.add_comm (area a)).
  done.
Qed.

Lemma combine_lookup {A B : Type} (l : list A) (k : list B) i a b :
  combine l k !! i = Some (a, b) -> l !! i = Some a /\ k !! i = Some b.
Proof.
  revert k i. induction l as [|x l IH]; intros [|y k] [|i]; simpl; try done.
  - by intros [= -> ->].
  - apply IH.
Qed.

Lemma combine_seq_short {A : Type} (l : list A) k n :
  (List.length l <= n)%nat -> combine (seq k n) l = combine (seq k (List.length l)) l.
Proof.
  revert k n. induction l as [|x l IH]; intros k [|n] Hlen; simpl in *; try done; try lia.
  rewrite (IH (S k) n) by lia. done.
Qed.

(** Each index NMSBoxes returns points at the box and the score it was
    computed from. *)
Lemma NMSBoxes_tagged bboxes scores st nt :
  exists kept : list (nat * (Rect * Q)),
    kept = suppress (fun c => fst (snd c)) (fun c => snd (snd c)) nt st
             (combine (seq 0 (List.length bboxes)) (combine bboxes scores))
    /\ NMSBoxes bboxes scores st nt = map fst kept
    /\ map (fun i => nth i bboxes no_box) (map fst kept) = map (fun c => fst (snd c)) kept
    /\ map (fun i => nth i scores (inject_Z 0)) (map fst kept) = map (fun c => snd (snd c)) kept.
Proof.
  eexists. split; [reflexivity|]. split; [reflexivity|].
  set (tagged := combine _ _).
  assert (Htag : Forall (fun c => nth (fst c) bboxes no_box = fst (snd c)
                               /\ nth (fst c) scores (inject_Z 0) = snd (snd c)) tagged).
  { unfold tagged. rewrite combine_seq_short
      by (rewrite List.length_combine; lia).
    eapply List.Forall_impl; [|apply (combine_seq_lookup (combine bboxes scores) 0)].
    intros [i [b s]] [_ Hc]; simpl in *. rewrite Nat.sub_0_r in Hc.
    apply combine_lookup in Hc as [Hb Hs]. by rewrite !nth_lookup, Hb, Hs. }
  apply (suppress_Forall (fun c => fst (snd c)) (fun c => snd (snd c)) nt st) in Htag.
  rewrite !List.map_map. split; apply List.map_ext_Forall;
    (eapply List.Forall_impl; [|exact Htag]); by intros c [? ?].
Qed.

(** C8. Running the Suppressor on the boxes it kept, with their scores and
    the same thresholds, keeps every one of them (the indices returned are
    all the positions 0 .. k-1), and no kept box overlaps another kept box
    above the IoU threshold. *)
Theorem suppressor_idempotent :
  forall bboxes scores score_threshold nms_threshold,
    let kept := NMSBoxes bboxes scores score_threshold nms_threshold in
    let kept_boxes := map (fun i => nth i bboxes no_box) kept in
    let kept_scores := map (fun i => nth i scores (inject_Z 0)) kept in
    NMSBoxes kept_boxes kept_scores score_threshold nms_threshold
    = seq 0 (List.length kept)
    /\ forall p q a b,
         p <> q -> kept_boxes !! p = Some a -> kept_boxes !! q = Some b ->
         (iou a b <= nms_threshold)%Q.
Proof.
  intros bboxes scores st nt.
  destruct (NMSBoxes_tagged bboxes scores st nt) as (kept & Hkept & -> & Hboxes & Hscores).
  cbv zeta. rewrite Hboxes, Hscores.
  set (box := fun c : nat * (Rect * Q) => fst (snd c)) in *.
  set (conf := fun c : nat * (Rect * Q) => snd (snd c)) in *.
  pose proof (suppress_live box conf nt st
                (combine (seq 0 (List.length bboxes)) (combine bboxes scores))) as Hlive.
  pose proof (suppress_descending box conf nt st
                (combine (seq 0 (List.length bboxes)) (combine bboxes scores))) as Hdesc.
  pose proof (suppress_apart box conf nt st
                (combine (seq 0 (List.length bboxes)) (combine bboxes scores))) as Hapart.
  rewrite <- Hkept in Hlive, Hdesc, Hapart. clear Hkept Hboxes Hscores.
  split.
  - unfold NMSBoxes. rewrite combine_seq_map.
    set (indexed := combine (seq 0 (List.length kept)) kept).
    rewrite (suppress_map (fun ic : nat * (nat * (Rect * Q)) =>
                             (fst ic, (box (snd ic), conf (snd ic))))
               (fun ic => box (snd ic)) (fun ic => conf (snd ic))) by done.
    rewrite List.map_map. simpl.
    assert (Hsnd : map snd indexed = kept) by apply map_snd_combine_seq.
    rewrite suppress_fixed.
    + rewrite List.length_map. apply map_fst_combine_seq.
    + apply (Forall_map snd (fun c => Qltb st (conf c) = true)). by rewrite Hsnd.
    + apply (ForallOrdPairs_map snd (fun a b => (conf b <= conf a)%Q)). by rewrite Hsnd.
    + apply (ForallOrdPairs_map snd (fun a b => suppressed_by box nt a b = false)).
      by rewrite Hsnd.
  - intros p q a b Hpq Ha Hb.
    rewrite list_lookup_fmap in Ha, Hb.
    destruct (kept !! p) as [ka|] eqn:Hka; [|done].
    destruct (kept !! q) as [kb|] eqn:Hkb; [|done].
    simpl in Ha, Hb. injection Ha as <-. injection Hb as <-.
    assert (Hord : forall p q ka kb, (p < q)%nat -> kept !! p = Some ka -> kept !! q = Some kb ->
                     (iou (box ka) (box kb) <= nt)%Q).
    { intros p' q' ka' kb' Hlt Hp Hq.
      pose proof (ForallOrdPairs_lookup _ _ Hapart p' q' ka' kb' Hlt Hp Hq) as Hs.
      unfold suppressed_by in Hs. by apply Qltb_ge in Hs. }
    destruct (Nat.lt_ge_cases p q) as [Hlt|Hge].
    + by eapply Hord.
    + rewrite iou_comm. eapply (Hord q p); [lia|done..].
Qed.

Example suppressor_on_three_boxes :
  NMSBoxes
    [ {| rect_x := 0; rect_y := 0; rect_w := 10; rect_h := 10 |};
      {| rect_x := 1; rect_y := 1; rect_w := 10; rect_h := 10 |};
      {| rect_x := 20; rect_y := 20; rect_w := 10; rect_h := 10 |} ]
    [ Qmake 5 10; Qmake 9 10; Qmake 4 10 ] CONF_THRESHOLD NMS_THRESHOLD
  = [1; 2]%nat.
Proof. vm_compute. reflexivity. Qed.

Lemma suppressor_idempotent_witness :
  (iou {| rect_x := 1; rect_y := 1; rect_w := 10; rect_h := 10 |}
       {| rect_x := 20; rect_y := 20; rect_w := 10; rect_h := 10 |} <= NMS_THRESHOLD)%Q.
Proof.
  apply (proj2 (suppressor_idempotent
                  [ {| rect_x := 0; rect_y := 0; rect_w := 10; rect_h := 10 |};
                    {| rect_x := 1; rect_y := 1; rect_w := 10; rect_h := 10 |};
                    {| rect_x := 20; rect_y := 20; rect_w := 10; rect_h := 10 |} ]
                  [ Qmake 5 10; Qmake 9 10; Qmake 4 10 ] CONF_THRESHOLD NMS_THRESHOLD)
               0%nat 1%nat).
  - lia.
  - vm_compute. reflexivity.
  - vm_compute. reflexivity.
Defined.

(** ** The decoder and the detection threshold *)




Lemma decode_row_live t num_cls prop c :
  decode_row t num_cls prop = Return (Some c) -> Qltb t (cand_conf c) = true.
Proof.
  unfold decode_row. destruct (_ <? _)%nat; [done|].
  destruct (argmax _) as [[c_id m_s]|e']; simpl; [|done].
  destruct (Qltb t m_s) eqn:H1; [|done].
  destruct (prop_box prop) as [|cx [|cy [|w [|h [|? ?]]]]]; try done. by intros [= <-].
Qed.

Lemma decode_live t num_cls proposals cands :
  decode t num_cls proposals = Return cands ->
  Forall (fun c => Qltb t (cand_conf c) = true) cands.
Proof.
  revert cands. induction proposals as [|prop rest IH]; intros cands.
  - intros [= <-]. constructor.
  - cbn [decode]. destruct (decode_row t num_cls prop) as [c|e] eqn:Hrow; [|done].
    cbn [bind]. destruct (decode t num_cls rest) as [cs|e]; [|done]. cbn [bind].
    intros [= <-]. destruct c as [c|]; [|by apply IH].
    constructor; [by eapply decode_row_live|by apply IH].
Qed.

(** ** The boxes of line 132 *)

(** [int()] returns on the four numbers of a box exactly when its four
    entries are finite. *)
Lemma cv_box_finite c :
  match finite_candidate c with
  | Some f => cv_box c = Return (finite_cv_box f) /\ cand_conf f = cand_conf c
  | None => exists e, cv_box c = Raise e
  end.
Proof.
  destruct c as [[[[b0 b1] b2] b3] conf cls]. unfold finite_candidate, cv_box. cbn [cand_box].
  destruct b0 as [q0|[]|], b1 as [q1|[]|], b2 as [q2|[]|], b3 as [q3|[]|];
    cbn; try (by eexists); done.
Qed.

Lemma cv_boxes_finite b_m :
  match cv_boxes b_m with
  | Return cv_b =>
      cv_b = map finite_cv_box (omap finite_candidate b_m)
      /\ map cand_conf b_m = map cand_conf (omap finite_candidate b_m)
      /\ Forall (fun c => is_Some (finite_candidate c)) b_m
  | Raise _ => Exists (fun c => finite_candidate c = None) b_m
  end.
Proof.
  induction b_m as [|c b_m IH]; [by repeat split|]. cbn [cv_boxes].
  change (omap finite_candidate (c :: b_m))
    with (match finite_candidate c with
          | Some f => f :: omap finite_candidate b_m
          | None => omap finite_candidate b_m
          end).
  pose proof (cv_box_finite c) as Hc.
  destruct (finite_candidate c) as [f|] eqn:Hf.
  - destruct Hc as [-> Hconf]. cbn [bind].
    destruct (cv_boxes b_m) as [cv_b|e]; cbn [bind].
    + destruct IH as (-> & Hconfs & Hall). cbn [map]. rewrite Hconf, Hconfs.
      split; [done|]. split; [done|]. constructor; [by rewrite Hf|done].
    + by apply List.Exists_cons_tl.
  - destruct Hc as [e ->]. cbn [bind]. by apply List.Exists_cons_hd.
Qed.


Lemma finite_candidate_conf c f : finite_candidate c = Some f -> cand_conf f = cand_conf c.
Proof.
  destruct c as [[[[b0 b1] b2] b3] conf cls]. unfold finite_candidate. cbn [cand_box].
  destruct (finite b0), (finite b1), (finite b2), (finite b3); try done. by intros [= <-].
Qed.



Lemma candidate_lists_live t num_cls proposals b_m cv_b :
  candidate_lists t num_cls proposals = Return (b_m, cv_b) ->
  Forall (fun c => Qltb t (cand_conf c) = true) (omap finite_candidate b_m).
Proof.
  unfold candidate_lists.
  destruct (decode t num_cls proposals) as [raws|e] eqn:Hdec; cbn [bind]; [|done].
  destruct (cv_boxes raws); cbn [bind]; [|done]. intros [= <- _].
  pose proof (decode_live _ _ _ _ Hdec) as Hlive. rewrite List.Forall_forall in *.
  intros f Hf. apply list_elem_of_In, list_elem_of_omap in Hf as (c & Hc & Hf).
  rewrite (finite_candidate_conf _ _ Hf). apply Hlive. by apply list_elem_of_In.
Qed.

(** ** From the indices to the detections *)

Lemma remap_loop_kept names scale dw dh w h cands (kept : list (nat * Candidate)) :
  Forall (fun ic => cands !! fst ic = Some (snd ic)) kept ->
  remap_loop names scale dw dh w h cands (map fst kept)
  = (omap (remap names scale dw dh w h) (map snd kept), false).
Proof.
  induction 1 as [|[i c] kept Hc _ IH]; [done|].
  simpl in *. rewrite Hc, IH. by destruct (remap names scale dw dh w h c).
Qed.

(** The [try] block, read on the candidates instead of their indices:
    when lines 125-132 return, the detections are the remapped candidates
    the Suppressor keeps, in its order, and the loop is not cut short. *)
Lemma postprocess_kept t nt names scale dw dh w h proposals :
  postprocess t nt names scale dw dh w h proposals
  = match candidate_lists t (List.length names) proposals with
    | Return (b_m, _) =>
        let kept := suppress finite_cv_box cand_conf nt t (omap finite_candidate b_m) in
        if is_empty kept then NoIndices
        else Emitted (omap (remap names scale dw dh w h) kept) false
    | Raise _ => Emitted [] true
    end.
Proof.
  unfold postprocess.
  destruct (candidate_lists t (List.length names) proposals) as [[b_m cv_b]|e] eqn:Hlists;
    [|done].
  assert (Hboxes : cv_boxes b_m = Return cv_b).
  { unfold candidate_lists in Hlists. destruct (decode _ _ _); cbn [bind] in Hlists; [|done].
    destruct (cv_boxes _) eqn:E; cbn [bind] in Hlists; [|done]. by injection Hlists as <- <-. }
  pose proof (cv_boxes_finite b_m) as Hfinite. rewrite Hboxes in Hfinite.
  destruct Hfinite as (-> & -> & _).
  set (cands := omap finite_candidate b_m).
  destruct (NMSBoxes_candidates cands t nt) as (kept & Hidx & Hkept & Hlook).
  cbv zeta. rewrite <- Hkept.
  assert (Hindices :
            (if is_empty (map finite_cv_box cands) then []
             else NMSBoxes (map finite_cv_box cands) (map cand_conf cands) t nt) = map fst kept).
  { destruct cands as [|c cands']; [|done]. simpl.
    assert (Hnil : map snd kept = []).
    { rewrite Hkept. unfold suppress. simpl. by rewrite greedy_equation_1. }
    by destruct kept. }
  rewrite Hindices. destruct kept as [|k kept]; [done|].
  simpl is_empty. cbv iota.
  by rewrite (remap_loop_kept _ _ _ _ _ _ _ _ Hlook).
Qed.




Example sample_survivors :
  map bbox (surviving_detections CONF_THRESHOLD NMS_THRESHOLD ["cat"; "dog"]
              (inject_Z 1) 0 0 640 640 sample_proposals)
  = [(75, 75, 125, 125)%Z; (360, 270, 440, 330)%Z]
  /\ map bbox (surviving_detections (Qmake 6 10) NMS_THRESHOLD ["cat"; "dog"]
                 (inject_Z 1) 0 0 640 640 sample_proposals)
     = [(75, 75, 125, 125)%Z].
Proof. split; vm_compute; reflexivity. Qed.

Example sample_frame_report :
  fst (perform_inference_and_postprocess dog_announced sample_frame 640 640)
  = ["cat (left) [0.90]"; "dog (right) [0.55]"].
Proof. vm_compute. reflexivity. Qed.


(** ** The coordinate remapper *)

Lemma remap_emits names scale dw dh w h c d :
  remap names scale dw dh w h c = Some d ->
  bbox d = clamped_corners scale dw dh w h c /\ bbox_within w h d.
Proof.
  unfold remap, bbox_within.
  destruct (_ <=? _)%nat; [done|].
  destruct (clamped_corners scale dw dh w h c) as [[[x1c y1c] x2c] y2c] eqn:E.
  destruct ((x1c <? x2c)%Z && (y1c <? y2c)%Z) eqn:Hspan; [|done].
  intros [= <-]. simpl. split; [done|].
  apply andb_true_iff in Hspan as [Hx%Z.ltb_lt Hy%Z.ltb_lt].
  unfold clamped_corners in E. destruct (cand_box c) as [[[cx cy] bw] bh].
  injection E as <- <- <- <-. lia.
Qed.

Lemma remap_discards names scale dw dh w h c :
  collapsed (clamped_corners scale dw dh w h c) ->
  remap names scale dw dh w h c = None.
Proof.
  unfold remap, collapsed. destruct (_ <=? _)%nat; [done|].
  destruct (clamped_corners scale dw dh w h c) as [[[x1c y1c] x2c] y2c].
  intros Hc.
  assert (Hspan : (x1c <? x2c)%Z && (y1c <? y2c)%Z = false).
  { apply andb_false_iff. rewrite !Z.ltb_ge. tauto. }
  by rewrite Hspan.
Qed.

Lemma remap_loop_emits names scale dw dh w h cands indices d :
  In d (fst (remap_loop names scale dw dh w h cands indices)) -> bbox_within w h d.
Proof.
  induction indices as [|i rest IH]; simpl; [done|].
  destruct (cands !! i) as [c|]; [|done].
  destruct (remap_loop names scale dw dh w h cands rest) as [ds raised]. simpl in *.
  destruct (remap names scale dw dh w h c) as [d'|] eqn:Hremap; [|done].
  intros [<-|Hin]; [|by apply IH]. by apply remap_emits in Hremap as [_ ?].
Qed.

Lemma postprocess_emits t nt names scale dw dh w h proposals ds raised d :
  postprocess t nt names scale dw dh w h proposals = Emitted ds raised ->
  In d ds -> bbox_within w h d.
Proof.
  unfold postprocess. destruct (candidate_lists _ _ _) as [[b_m cv_b]|e]; [|by intros [= <- <-]].
  destruct (is_empty (if is_empty _ then _ else _)); [done|].
  match goal with
  | |- context [remap_loop ?a ?b ?c ?d ?e ?f ?g ?i] =>
      pose proof (remap_loop_emits a b c d e f g i) as Hloop;
      destruct (remap_loop a b c d e f g i) as [ds' raised']
  end.
  intros [= <- <-]. apply Hloop.
Qed.

(** C9. Every detection the pipeline reports, for any thresholds and in
    particular in the detections_json of perform_inference_and_postprocess,
    satisfies 0 <= x1 < x2 <= width-1 and 0 <= y1 < y2 <= height-1, its box
    being the clamped corners of a kept candidate; and a candidate whose
    clamped corners collapse (x1 >= x2 or y1 >= y2) is discarded. *)
Theorem surviving_boxes_within_image :
  (forall t nms_threshold names scale dw dh width height proposals d,
      In d (surviving_detections t nms_threshold names scale dw dh width height proposals) ->
      bbox_within width height d)
  /\ (forall g frame width height d,
        In d (snd (perform_inference_and_postprocess g frame width height)) ->
        bbox_within width height d)
  /\ (forall names scale dw dh width height c,
        (forall d, remap names scale dw dh width height c = Some d ->
                   bbox d = clamped_corners scale dw dh width height c
                   /\ bbox_within width height d)
        /\ (collapsed (clamped_corners scale dw dh width height c) ->
            remap names scale dw dh width height c = None)).
Proof.
  split; [|split].
  - intros t nt names scale dw dh w h proposals d. unfold surviving_detections.
    destruct (postprocess _ _ _ _ _ _ _ _ _) as [|ds raised] eqn:Hpost; [done|].
    by eapply postprocess_emits.
  - intros g frame w h d. unfold perform_inference_and_postprocess.
    destruct (preprocess_frame_for_onnx _ _ _) as [[[scale dw] dh]|]; [|done].
    destruct (Qeq_bool _ _); [done|]. destruct (negb _); [done|].
    destruct (run_outputs frame) as [proposals|]; [|done].
    destruct (postprocess _ _ _ _ _ _ _ _ _) as [|ds raised] eqn:Hpost; [done|].
    simpl. intros (d' & <- & Hin)%List.in_map_iff.
    pose proof (postprocess_emits _ _ _ _ _ _ _ _ _ _ _ _ Hpost Hin) as Hd.
    unfold bbox_within in *. done.
  - intros names scale dw dh w h c. split.
    + intros d. apply remap_emits.
    + apply remap_discards.
Qed.

Lemma surviving_boxes_within_image_witness :
  bbox_within 640 640
    {| class_name := "cat"; score := Qmake 90 100; direction := "left";
       bbox := (75, 75, 125, 125)%Z |}.
Proof.
  apply (proj1 (proj2 surviving_boxes_within_image) dog_announced sample_frame 640%Z 640%Z).
  vm_compute. left. reflexivity.
Defined.

(** * Further properties of the code *)

(** ** The summariser *)

Lemma summary_step_observation acc item :
  summary_step acc item
  = match observation item with
    | None => acc
    | Some (name, dir) =>
        (fst acc ∪ {[ (name, dir) ]},
         match snd acc !! dir with
         | Some c => <[dir := counter_incr name c]> (snd acc)
         | None => snd acc
         end)
    end.
Proof.
  destruct acc as [S B]. unfold summary_step, observation.
  destruct (parse_item item) as [[[name_part direction_part] score]|e]; [|done].
  by destruct (Float.ltb score SPEECH_CONF_THRESHOLD).
Qed.

Lemma summary_fold_set items S B :
  fst (fold_left summary_step items (S, B)) = S ∪ list_to_set (omap observation items).
Proof.
  revert S B. induction items as [|item items IH]; intros S B.
  - simpl. set_solver.
  - cbn [fold_left]. rewrite summary_step_observation.
    change (omap observation (item :: items))
      with (match observation item with
            | Some y => y :: omap observation items
            | None => omap observation items
            end).
    destruct (observation item) as [[name dir]|]; cbn [fst snd].
    + destruct (B !! dir); rewrite IH; set_solver.
    + apply IH.
Qed.

Lemma generate_unfold items first rest :
  items = first :: rest -> is_message first = false ->
  generate_speech_summary_from_detections_strings items
  = let '(current_semantic_set, objects_by_direction) :=
      fold_left summary_step items (∅, initial_buckets) in
    let! summary_clauses := build_clauses objects_by_direction in
    match summary_clauses with
    | [] => Return (None, current_semantic_set)
    | c0 :: more =>
        let final_summary :=
          (if is_empty more then c0 else c0 ++ ", " ++ Py.join ", " more) ++ "." in
        if String.eqb (Py.strip final_summary) EmptyString || String.eqb final_summary "."
        then Return (None, current_semantic_set)
        else Return (Some (Py.strip final_summary), current_semantic_set)
    end.
Proof.
  intros -> Hmsg. unfold generate_speech_summary_from_detections_strings.
  unfold is_message in Hmsg. by rewrite Hmsg.
Qed.

Lemma generate_set items text s :
  generate_speech_summary_from_detections_strings items = Return (text, s) ->
  s = ∅ \/ s = list_to_set (omap observation items).
Proof.
  destruct items as [|first rest]; [intros [= <- <-]; by left|].
  destruct (is_message first) eqn:Hmsg.
  { unfold generate_speech_summary_from_detections_strings.
    unfold is_message in Hmsg. rewrite Hmsg. intros [= <- <-]. by left. }
  rewrite (generate_unfold _ first rest eq_refl Hmsg).
  pose proof (summary_fold_set (first :: rest) ∅ initial_buckets) as Hset.
  destruct (fold_left summary_step (first :: rest) (∅, initial_buckets)) as [S B].
  simpl in Hset. intros Hgen. right.
  assert (s = S) as ->.
  { destruct (build_clauses B) as [[|c0 more]|e]; simpl in Hgen; [by injection Hgen| |done].
    destruct (_ || _); by injection Hgen. }
  rewrite Hset. set_solver.
Qed.

Lemma counter_incr_In key c k n :
  In (k, n) (counter_incr key c) -> k = key \/ exists n', In (k, n') c.
Proof.
  induction c as [|[k' n'] c IH]; simpl.
  - intros [[= <- <-]|[]]. by left.
  - destruct (String.eqb k' key) eqn:Hk; simpl.
    + intros [[= <- <-]|Hin]; right; eauto.
    + intros [[= <- <-]|Hin]; [right; eauto|].
      destruct (IH Hin) as [->|[n'' Hn]]; [by left|right; eauto].
Qed.

Lemma initial_buckets_hold P : buckets_hold P initial_buckets.
Proof.
  intros dir c k n Hdir Hin. unfold initial_buckets in Hdir.
  destruct (decide (dir = "left")) as [->|]; [rewrite lookup_insert_eq in Hdir; injection Hdir as <-; destruct Hin|].
  rewrite lookup_insert_ne in Hdir by done.
  destruct (decide (dir = "right")) as [->|]; [rewrite lookup_insert_eq in Hdir; injection Hdir as <-; destruct Hin|].
  rewrite lookup_insert_ne in Hdir by done.
  destruct (decide (dir = "front")) as [->|]; [rewrite lookup_insert_eq in Hdir; injection Hdir as <-; destruct Hin|].
  rewrite lookup_insert_ne in Hdir by done. by rewrite lookup_empty in Hdir.
Qed.

Lemma summary_fold_buckets P items S B :
  buckets_hold P B ->
  (forall item name dir, In item items -> observation item = Some (name, dir) -> P name dir) ->
  buckets_hold P (snd (fold_left summary_step items (S, B))).
Proof.
  revert S B. induction items as [|item items IH]; intros S B HB Hobs; [done|].
  cbn [fold_left]. rewrite summary_step_observation. cbn [fst snd].
  destruct (observation item) as [[name dir]|] eqn:Hitem.
  - apply IH; [|intros ? ? ? Hin; apply Hobs; by right].
    destruct (B !! dir) as [c|] eqn:Hdir; [|done].
    intros dir' c' k n Hdir' Hin.
    destruct (decide (dir' = dir)) as [->|Hne].
    + rewrite lookup_insert_eq in Hdir'. injection Hdir' as <-.
      apply counter_incr_In in Hin as [->|[n' Hin]].
      * eapply Hobs; [by left|done].
      * by eapply HB.
    + rewrite lookup_insert_ne in Hdir' by done. by eapply HB.
  - apply IH; [done|]. intros ? ? ? Hin. apply Hobs. by right.
Qed.

Lemma bucket_hold P B dir k n :
  buckets_hold P B -> In (k, n) (bucket B dir) -> P k dir.
Proof.
  unfold bucket. intros HB. destruct (B !! dir) as [c|] eqn:Hdir; [|done].
  simpl. by eapply HB.
Qed.

(** *** The formatter inside the summariser *)

Lemma second_last_raises s e : Py.second_last s = Raise e -> e = IndexError.
Proof.
  induction s as [|a s IH]; [by intros [= <-]|].
  destruct s as [|b [|c s]]; [by intros [= <-]|done|exact IH].
Qed.

Lemma format_raises_index name count e :
  format_object_with_count name count = Raise e -> e = IndexError.
Proof.
  unfold format_object_with_count.
  set (plural := if _ || _ then _ else _).
  assert (Hplural : (exists p, plural = Return p) \/ plural = Raise IndexError).
  { unfold plural. destruct (_ || _); [by eauto|].
    destruct (Py.endswith name "y"); [|by eauto].
    destruct (Py.second_last name) as [c|e'] eqn:Hc; cbn [bind].
    - destruct (negb _); eauto.
    - right. by rewrite (second_last_raises _ _ Hc). }
  destruct Hplural as [[p ->]| ->]; cbn [bind]; [|by intros [= <-]].
  destruct (count =? 1)%Z.
  - destruct name; cbn [Py.first bind]; [by intros [= <-]|]. by destruct (Py.in_aeiou _).
  - destruct (count =? 2)%Z; [done|]. by destruct (count =? 3)%Z.
Qed.

Lemma format_items_returns c :
  Forall (fun kn : string * Z => fst kn <> "y" /\ fst kn <> EmptyString) c ->
  exists xs, format_items c = Return xs /\ List.length xs = List.length c.
Proof.
  induction 1 as [|[k n] c [Hy He] _ [xs [IH Hlen]]]; [by exists []|].
  simpl in *. destruct (format_by_rule k n Hy) as (plural & text & Htext & _); [done|].
  rewrite Htext. cbn [bind]. rewrite IH. cbn [bind]. exists (text :: xs). simpl. by rewrite Hlen.
Qed.

Lemma format_items_length c xs :
  format_items c = Return xs -> List.length xs = List.length c.
Proof.
  revert xs. induction c as [|[k n] c IH]; intros xs; simpl.
  - by intros [= <-].
  - destruct (format_object_with_count k n); cbn [bind]; [|done].
    destruct (format_items c) as [ys|]; cbn [bind]; [|done].
    intros [= <-]. simpl. by rewrite (IH ys).
Qed.

Lemma format_items_raises_index c e : format_items c = Raise e -> e = IndexError.
Proof.
  induction c as [|[k n] c IH]; simpl; [done|].
  destruct (format_object_with_count k n) eqn:Hk; cbn [bind].
  - destruct (format_items c); cbn [bind]; [done|]. intros [= <-]. by apply IH.
  - intros [= <-]. by eapply format_raises_index.
Qed.

(** *** The clauses *)

Ltac bucket_case B dir :=
  let Hb := fresh "Hbucket" in
  let Hf := fresh "Hformat" in
  let kn := fresh "kn" in
  let c := fresh "c" in
  destruct (bucket B dir) as [|kn c] eqn:Hb; cbn [is_empty bind];
  [|destruct (format_items (kn :: c)) as [[|? ?]|?] eqn:Hf; cbn [bind is_empty List.app];
    [apply format_items_length in Hf; discriminate Hf| |try done]].

Lemma build_clauses_shape B clauses :
  build_clauses B = Return clauses ->
  match clauses with
  | [] => bucket B "front" = [] /\ bucket B "left" = [] /\ bucket B "right" = []
  | c0 :: _ =>
      (exists body,
          c0 = "in front of you, there's " ++ body
          \/ c0 = "to your left, there's " ++ body
          \/ c0 = "to your right, there's " ++ body)
      /\ (bucket B "front" <> [] \/ bucket B "left" <> [] \/ bucket B "right" <> [])
  end.
Proof.
  unfold build_clauses. cbv zeta.
  bucket_case B "front"; bucket_case B "left"; bucket_case B "right";
    intros [= <-]; try done;
    (split;
     [eexists; first [left; reflexivity | right; left; reflexivity | right; right; reflexivity]
     |first [left; congruence | right; left; congruence | right; right; congruence]]).
Qed.

Lemma build_clauses_returns B :
  buckets_hold (fun k _ => k <> "y" /\ k <> EmptyString) B ->
  exists clauses, build_clauses B = Return clauses.
Proof.
  intros HB.
  assert (Hfmt : forall dir, exists xs,
             format_items (bucket B dir) = Return xs
             /\ List.length xs = List.length (bucket B dir)).
  { intros dir. apply format_items_returns. apply List.Forall_forall.
    intros [k n] Hin. by apply (bucket_hold _ B dir k n HB). }
  unfold build_clauses. cbv zeta.
  destruct (Hfmt "front") as (fs & -> & _), (Hfmt "left") as (ls & -> & _),
    (Hfmt "right") as (rs & -> & _).
  cbn [bind].
  destruct (is_empty (bucket B "front")), (is_empty fs); cbn [bind];
    destruct (is_empty (bucket B "left")), (is_empty ls); cbn [bind];
    destruct (is_empty (bucket B "right")), (is_empty rs); by eexists.
Qed.

Lemma build_clauses_raises_index B e : build_clauses B = Raise e -> e = IndexError.
Proof.
  unfold build_clauses. cbv zeta.
  destruct (is_empty (bucket B "front")); cbn [bind].
  2: destruct (format_items (bucket B "front")) as [fs|e'] eqn:Hf; cbn [bind];
       [|intros [= <-]; by eapply format_items_raises_index].
  2: destruct (is_empty fs); cbn [bind].
  all: destruct (is_empty (bucket B "left")); cbn [bind].
  all: try (destruct (format_items (bucket B "left")) as [ls|e'] eqn:Hl; cbn [bind];
            [destruct (is_empty ls); cbn [bind]
            |intros [= <-]; by eapply format_items_raises_index]).
  all: destruct (is_empty (bucket B "right")); cbn [bind]; try done.
  all: destruct (format_items (bucket B "right")) as [rs|e'] eqn:Hr; cbn [bind];
         [by destruct (is_empty rs)|intros [= <-]; by eapply format_items_raises_index].
Qed.

(** *** Blanks *)

Lemma rstrip_by_dot p s :
  p "."%char = false -> Py.rstrip_by p (s ++ ".") = s ++ ".".
Proof.
  intros Hp. induction s as [|c s IH].
  - simpl. by rewrite Hp.
  - rewrite app_String. cbn [Py.rstrip_by]. rewrite IH.
    destruct s; by rewrite ?app_String.
Qed.

Lemma strip_fixed c s :
  Py.isspace c = false -> Py.strip (String c s ++ ".") = String c s ++ ".".
Proof.
  intros Hc. unfold Py.strip. rewrite app_String. cbn [Py.lstrip_by]. rewrite Hc.
  rewrite <- app_String. by apply rstrip_by_dot.
Qed.

Lemma prefix_app lead rest : String.prefix lead (lead ++ rest) = true.
Proof.
  induction lead as [|c lead IH]; [by destruct rest|].
  rewrite app_String. simpl. destruct (ascii_dec c c); [done|congruence].
Qed.

Lemma observation_in_set items item name dir :
  In item items -> observation item = Some (name, dir) ->
  (name, dir) ∈ (list_to_set (omap observation items) : SemanticSet).
Proof.
  intros Hin Hobs. apply elem_of_list_to_set, list_elem_of_omap.
  exists item. split; [by apply list_elem_of_In|done].
Qed.

(** What the summariser returns for a list that does not begin with a
    message: the clauses of the buckets filled by the loop, and the set of
    all observations. *)
Lemma generate_cases items first rest :
  items = first :: rest -> is_message first = false ->
  exists B,
    buckets_hold (fun k dir => (k, dir) ∈ (list_to_set (omap observation items) : SemanticSet)) B
    /\ (forall P : string -> string -> Prop,
          (forall item name dir,
              In item items -> observation item = Some (name, dir) -> P name dir) ->
          buckets_hold P B)
    /\ generate_speech_summary_from_detections_strings items
       = let! summary_clauses := build_clauses B in
         match summary_clauses with
         | [] => Return (None, list_to_set (omap observation items))
         | c0 :: more =>
             let final_summary :=
               (if is_empty more then c0 else c0 ++ ", " ++ Py.join ", " more) ++ "." in
             if String.eqb (Py.strip final_summary) EmptyString || String.eqb final_summary "."
             then Return (None, list_to_set (omap observation items))
             else Return (Some (Py.strip final_summary), list_to_set (omap observation items))
         end.
Proof.
  intros Hitems Hmsg. rewrite (generate_unfold items first rest Hitems Hmsg).
  pose proof (summary_fold_set items ∅ initial_buckets) as Hset.
  pose proof (fun P => summary_fold_buckets P items ∅ initial_buckets
                         (initial_buckets_hold P)) as Hhold.
  destruct (fold_left summary_step items (∅, initial_buckets)) as [S B].
  cbn [fst snd] in *. exists B.
  assert (S = list_to_set (omap observation items)) as -> by (rewrite Hset; set_solver).
  split; [|split; [exact Hhold|done]].
  apply Hhold. intros item name dir. apply observation_in_set.
Qed.

Lemma lead_in_app lead body rest :
  lead = "in front of you, there's " \/ lead = "to your left, there's "
  \/ lead = "to your right, there's " ->
  lead_in ((lead ++ body) ++ rest)
  /\ exists c s, (lead ++ body) ++ rest = String c s /\ Py.isspace c = false.
Proof.
  intros Hlead. rewrite string_app_assoc. split.
  - unfold lead_in, Py.startswith.
    destruct Hlead as [->|[->| ->]]; rewrite prefix_app; auto.
  - destruct Hlead as [->|[->| ->]]; rewrite app_String; by eexists _, _.
Qed.

(** A summary text begins with a lead-in, ends with a full stop, is not
    the scene-clear sentence, and comes with the non-empty set of all
    observations. *)
Lemma summary_text_facts items text s :
  generate_speech_summary_from_detections_strings items = Return (Some text, s) ->
  lead_in text
  /\ Py.endswith text "." = true
  /\ text <> EmptyString
  /\ text <> "Scene clear."
  /\ s <> ∅
  /\ s = list_to_set (omap observation items).
Proof.
  intros Hgen.
  destruct items as [|first rest]; [done|].
  destruct (is_message first) eqn:Hmsg.
  { unfold generate_speech_summary_from_detections_strings in Hgen.
    unfold is_message in Hmsg. by rewrite Hmsg in Hgen. }
  destruct (generate_cases _ first rest eq_refl Hmsg) as (B & Hin & _ & Heq).
  rewrite Heq in Hgen. clear Heq.
  destruct (build_clauses B) as [[|c0 more]|e] eqn:Hclauses; cbn [bind] in Hgen; try done.
  apply build_clauses_shape in Hclauses as [[body Hc0] Hfilled].
  cbv zeta in Hgen. destruct (_ || _); [done|]. injection Hgen as <- <-.
  set (tail := if is_empty more then EmptyString else ", " ++ Py.join ", " more).
  assert (Hfinal : (if is_empty more then c0 else c0 ++ ", " ++ Py.join ", " more) ++ "."
                   = (c0 ++ tail) ++ ".").
  { unfold tail. destruct (is_empty more); [|done].
    f_equal. clear. induction c0 as [|a c0 IH]; [done|]. by rewrite app_String, <- IH. }
  rewrite Hfinal. clear Hfinal.
  assert (Hlead : exists lead,
             c0 = lead ++ body
             /\ (lead = "in front of you, there's " \/ lead = "to your left, there's "
                 \/ lead = "to your right, there's ")).
  { destruct Hc0 as [->|[->| ->]]; eexists; split; eauto. }
  destruct Hlead as (lead & -> & Hlead).
  destruct (lead_in_app lead body tail Hlead) as [_ (c & rest' & Hshape & Hc)].
  rewrite Hshape, (strip_fixed c rest' Hc), <- Hshape.
  destruct (lead_in_app lead (body ++ tail) "." Hlead) as [Hin' _].
  rewrite <- (string_app_assoc lead body tail) in Hin'.
  assert (Hne : (lead ++ body) ++ tail <> EmptyString) by (rewrite Hshape; done).
  split; [done|]. split; [apply endswith_ends_with; by eexists|].
  split; [rewrite Hshape; done|]. split.
  - intros Hsc. rewrite Hsc in Hin'. unfold lead_in in Hin'. vm_compute in Hin'.
    by destruct Hin' as [?|[?|?]].
  - split; [|done]. intros Hempty.
    assert (Hany : exists dir k n, In (k, n) (bucket B dir)).
    { destruct Hfilled as [H|[H|H]];
        [exists "front"|exists "left"|exists "right"];
        destruct (bucket B _) as [|[k n] ?]; try done; exists k, n; by left. }
    destruct Hany as (dir & k & n & Hkn).
    pose proof (bucket_hold _ B dir k n Hin Hkn) as Helem. simpl in Helem.
    rewrite Hempty in Helem. set_solver.
Qed.

(** X1. A summary text, when the summariser returns one, begins with one
    of its three lead-ins, ends with a full stop, is never empty and never
    the sentence "Scene clear."; and the semantic set returned with it is
    not empty: it is the set of the observations of all items. *)
Theorem summary_text_shape :
  forall items text s,
    generate_speech_summary_from_detections_strings items = Return (Some text, s) ->
    lead_in text
    /\ Py.endswith text "." = true
    /\ text <> EmptyString
    /\ text <> "Scene clear."
    /\ s <> ∅
    /\ s = list_to_set (omap observation items).
Proof. exact summary_text_facts. Qed.

Lemma summary_text_shape_witness :
  lead_in "in front of you, there's two cats, while to your left, you'll find a dog."
  /\ ({[ ("cat", "front"); ("dog", "left") ]} : SemanticSet) <> ∅.
Proof.
  destruct (summary_text_shape
              ["cat (front) [0.90]"; "cat (front) [0.80]"; "dog (left) [0.50]"]
              "in front of you, there's two cats, while to your left, you'll find a dog."
              {[ ("cat", "front"); ("dog", "left") ]})
    as (Hlead & _ & _ & _ & Hset & _).
  - by_evaluation.
  - split; [exact Hlead|exact Hset].
Defined.

(** X2. An item that does not parse, or whose score is below the speech
    threshold, is skipped: wherever it stands after the first item, the
    summariser returns what it returns without it. *)
Theorem skipped_items_leave_no_trace :
  forall first before skipped after,
    observation skipped = None ->
    generate_speech_summary_from_detections_strings (first :: before ++ skipped :: after)
    = generate_speech_summary_from_detections_strings (first :: before ++ after).
Proof.
  intros first before skipped after Hskip.
  unfold generate_speech_summary_from_detections_strings.
  destruct (_ || _); [done|].
  assert (Hfold : fold_left summary_step (first :: before ++ skipped :: after)
                    (∅, initial_buckets)
                  = fold_left summary_step (first :: before ++ after) (∅, initial_buckets)).
  { rewrite !(app_comm_cons before), !fold_left_app. cbn [fold_left].
    by rewrite (summary_step_observation _ skipped), Hskip. }
  by rewrite Hfold.
Qed.

Lemma skipped_items_leave_no_trace_witness :
  generate_speech_summary_from_detections_strings
    ["cat (front) [0.90]"; "no brackets here"; "dog (left) [0.10]"; "dog (left) [0.50]"]
  = generate_speech_summary_from_detections_strings
      ["cat (front) [0.90]"; "no brackets here"; "dog (left) [0.50]"].
Proof.
  apply (skipped_items_leave_no_trace "cat (front) [0.90]" ["no brackets here"]
           "dog (left) [0.10]" ["dog (left) [0.50]"]).
  vm_compute. reflexivity.
Defined.

Lemma curated_names_format :
  Forall (fun name => name <> "y" /\ name <> EmptyString) CURATED_OBJECT_CLASS_CANDIDATES.
Proof. repeat (constructor; [split; discriminate|]). constructor. Qed.

(** The summariser returns when no counted name is "y" or empty. *)
Lemma summary_returns items :
  (forall item name dir,
      In item items -> observation item = Some (name, dir) ->
      name <> "y" /\ name <> EmptyString) ->
  exists text s,
    generate_speech_summary_from_detections_strings items = Return (text, s).
Proof.
  intros Hnames. destruct items as [|first rest]; [by eexists _, _|].
  destruct (is_message first) eqn:Hmsg.
  { unfold generate_speech_summary_from_detections_strings.
    unfold is_message in Hmsg. rewrite Hmsg. by eexists _, _. }
  destruct (generate_cases _ first rest eq_refl Hmsg) as (B & _ & Hhold & ->).
  destruct (build_clauses_returns B) as [[|c0 more] ->]; cbn [bind].
  - apply (Hhold (fun k _ => k <> "y" /\ k <> EmptyString)). exact Hnames.
  - by eexists _, _.
  - cbv zeta. destruct (_ || _); by eexists _, _.
Qed.

(** X3. The only exception that leaves the summariser is IndexError, and
    it returns whenever no item that it counts has the class name "y" or the
    empty name; in particular whenever every such name is one of the
    curated class candidates. *)
Theorem summary_returns_on_sound_names :
  (forall items e,
      generate_speech_summary_from_detections_strings items = Raise e -> e = IndexError)
  /\ (forall items,
        (forall item name dir,
            In item items -> observation item = Some (name, dir) ->
            name <> "y" /\ name <> EmptyString) ->
        exists text s,
          generate_speech_summary_from_detections_strings items = Return (text, s))
  /\ (forall items,
        (forall item name dir,
            In item items -> observation item = Some (name, dir) ->
            In name CURATED_OBJECT_CLASS_CANDIDATES) ->
        exists text s,
          generate_speech_summary_from_detections_strings items = Return (text, s)).
Proof.
  split; [|split; [exact summary_returns|]].
  - intros items e. destruct items as [|first rest]; [done|].
    destruct (is_message first) eqn:Hmsg.
    { unfold generate_speech_summary_from_detections_strings.
      unfold is_message in Hmsg. by rewrite Hmsg. }
    destruct (generate_cases _ first rest eq_refl Hmsg) as (B & _ & _ & ->).
    destruct (build_clauses B) as [[|c0 more]|e'] eqn:Hclauses; cbn [bind].
    + done.
    + cbv zeta. by destruct (_ || _).
    + intros [= <-]. by eapply build_clauses_raises_index.
  - intros items Hcurated. apply summary_returns. intros item name dir Hin Hobs.
    pose proof curated_names_format as Hall. rewrite List.Forall_forall in Hall.
    apply Hall. by eapply Hcurated.
Qed.

Lemma summary_returns_on_sound_names_witness :
  exists text s,
    generate_speech_summary_from_detections_strings ["sky (front) [0.90]"] = Return (text, s).
Proof.
  apply (proj1 (proj2 summary_returns_on_sound_names) ["sky (front) [0.90]"]).
  intros item name dir [<-|[]] Hobs. vm_compute in Hobs. injection Hobs as <- _.
  split; discriminate.
Defined.

(** X4. The semantic set does not depend on the order of the items: two
    lists with the same items, neither beginning with a message, give the
    same set. *)
Theorem semantic_set_order_free :
  forall items items' text s text' s',
    Permutation items items' ->
    Forall (fun item => is_message item = false) items ->
    generate_speech_summary_from_detections_strings items = Return (text, s) ->
    generate_speech_summary_from_detections_strings items' = Return (text', s') ->
    s = s'.
Proof.
  intros items items' text s text' s' Hperm Hclean Hgen Hgen'.
  assert (Hclean' : Forall (fun item => is_message item = false) items').
  { rewrite List.Forall_forall in *. intros item Hin. apply Hclean.
    by apply (Permutation_in _ (Permutation_sym Hperm)). }
  assert (Hset : forall l t u,
             Forall (fun item => is_message item = false) l ->
             generate_speech_summary_from_detections_strings l = Return (t, u) ->
             u = list_to_set (omap observation l)).
  { intros l t u Hl Hu. destruct l as [|first rest]; [by injection Hu as <- <-|].
    inversion Hl as [|? ? Hfirst _]; subst.
    destruct (generate_cases _ first rest eq_refl Hfirst) as (B & _ & _ & Heq).
    rewrite Heq in Hu. destruct (build_clauses B) as [[|c0 more]|e]; cbn [bind] in Hu;
      [by injection Hu| |done].
    cbv zeta in Hu. destruct (_ || _); by injection Hu. }
  rewrite (Hset _ _ _ Hclean Hgen), (Hset _ _ _ Hclean' Hgen').
  apply set_eq. intros x. rewrite !elem_of_list_to_set, !list_elem_of_omap.
  split; intros (item & Hin & Hobs); exists item; split; try done.
  - by rewrite <- Hperm.
  - by rewrite Hperm.
Qed.

Lemma semantic_set_order_free_witness :
  ({[ ("cat", "front"); ("dog", "left") ]} : SemanticSet)
  = {[ ("dog", "left"); ("cat", "front") ]}.
Proof.
  apply (semantic_set_order_free
           ["cat (front) [0.90]"; "dog (left) [0.50]"]
           ["dog (left) [0.50]"; "cat (front) [0.90]"]
           (Some "in front of you, there's a cat, while to your left, you'll find a dog.")
           {[ ("cat", "front"); ("dog", "left") ]}
           (Some "in front of you, there's a cat, while to your left, you'll find a dog.")
           {[ ("dog", "left"); ("cat", "front") ]}).
  - apply perm_swap.
  - repeat constructor.
  - by_evaluation.
  - by_evaluation.
Defined.

(** ** The routes around the state machine *)

(** Either the route answers without looking at the frame's detections,
    and changes nothing, or it hands the summary of the frame to the state
    machine. *)
Lemma route_cases g req now :
  (fst (process_image_route g req now) = g
   /\ speech_output_of (snd (process_image_route g req now)) <> Some "Scene clear."
   /\ match snd (process_image_route g req now) with
      | Detections _ _ _ | Jpeg => False
      | _ => True
      end)
  \/ (exists detection_strings detections_json text s,
         detection_active g = true
         /\ generate_speech_summary_from_detections_strings detection_strings = Return (text, s)
         /\ process_image_route g req now
            = (fst (announce g text s now),
               if draw_boxes req && encodes req then Jpeg
               else Detections detection_strings detections_json
                      (snd (announce g text s now)))).
Proof.
  unfold process_image_route.
  destruct (detection_active g); cbn [negb]; [|by left].
  destruct (upload req) as [| | |frame]; try by left.
  destruct (onnx_session g); cbn [negb]; [|by left].
  destruct (perform_inference_and_postprocess g frame _ _) as [strings json].
  destruct (generate_speech_summary_from_detections_strings strings)
    as [[text s]|e] eqn:Hgen; [|by left].
  right. exists strings, json, text, s. split; [done|]. split; [done|].
  by destruct (announce g text s now).
Qed.

(** The candidate of a frame is a summary text or the scene-clear
    sentence, the latter only when scene-clear announcements are on. *)
Lemma candidate_cases g items text s :
  generate_speech_summary_from_detections_strings items = Return (text, s) ->
  match speech_for_this_response g text with
  | None => True
  | Some candidate =>
      (text = Some candidate /\ candidate <> "Scene clear." /\ candidate <> EmptyString
       /\ s <> ∅)
      \/ (candidate = "Scene clear." /\ announce_scene_clear g = true
          /\ last_semantic_summary_set g <> ∅)
  end.
Proof.
  intros Hgen. unfold speech_for_this_response.
  destruct text as [t|]; simpl.
  - destruct (summary_text_facts _ _ _ Hgen) as (_ & _ & Hne & Hsc & Hs & _).
    apply String.eqb_neq in Hne as Hne'. rewrite Hne'. simpl. by left.
  - destruct (announce_scene_clear g) eqn:Ha; simpl; [|done].
    destruct (nonempty _) eqn:Hn; [|done]. right. by apply nonempty_true in Hn.
Qed.

(** X5. Pausing an active server answers "Detection Paused.", which
    becomes the text to repeat, keeps the semantic set and the time of the
    last announcement, and makes process_image_route refuse every request
    with status 423 without changing anything. *)
Theorem paused_server_refuses :
  forall g,
    detection_active g = true ->
    let g1 := fst (toggle_detection g) in
    snd (toggle_detection g) = ("Detection Paused.", false)
    /\ get_last_announcement_text_route g1 = Some "Detection Paused."
    /\ last_semantic_summary_set g1 = last_semantic_summary_set g
    /\ last_announcement_text_generation_time g1 = last_announcement_text_generation_time g
    /\ forall req now,
         process_image_route g1 req now
         = (g1, Status423 "Detection is paused." "Detection is currently paused.").
Proof.
  intros g Hactive. unfold toggle_detection. rewrite Hactive. cbn [negb fst snd].
  repeat split.
Qed.

Lemma paused_server_refuses_witness :
  process_image_route (fst (toggle_detection dog_announced))
    {| upload := Readable sample_frame; draw_boxes := false; encodes := true |} (inject_Z 200)
  = (fst (toggle_detection dog_announced),
     Status423 "Detection is paused." "Detection is currently paused.").
Proof.
  apply (paused_server_refuses dog_announced). reflexivity.
Defined.

(** The state machine does not read the text to repeat. *)
Lemma announce_with_text g t text s now :
  snd (announce (with_text g t) text s now) = snd (announce g text s now)
  /\ fst (announce (with_text g t) text s now)
     = if commits g (speech_for_this_response g text) s now
       then fst (announce g text s now)
       else with_text g t.
Proof.
  unfold announce.
  change (speech_for_this_response (with_text g t) text)
    with (speech_for_this_response g text).
  destruct (speech_for_this_response g text) as [candidate|] eqn:Hsp.
  - change (commits (with_text g t) (Some candidate) s now)
      with (commits g (Some candidate) s now).
    destruct (commits g (Some candidate) s now); split; reflexivity.
  - split; reflexivity.
Qed.

Lemma route_with_text g t req now :
  snd (process_image_route (with_text g t) req now) = snd (process_image_route g req now)
  /\ last_semantic_summary_set (fst (process_image_route (with_text g t) req now))
     = last_semantic_summary_set (fst (process_image_route g req now))
  /\ last_announcement_text_generation_time (fst (process_image_route (with_text g t) req now))
     = last_announcement_text_generation_time (fst (process_image_route g req now)).
Proof.
  unfold process_image_route.
  change (detection_active (with_text g t)) with (detection_active g).
  change (onnx_session (with_text g t)) with (onnx_session g).
  destruct (detection_active g); cbn [negb]; [|done].
  destruct (upload req) as [| | |frame]; try done.
  destruct (onnx_session g); cbn [negb]; [|done].
  change (perform_inference_and_postprocess (with_text g t) frame)
    with (perform_inference_and_postprocess g frame).
  destruct (perform_inference_and_postprocess g frame _ _) as [strings json].
  destruct (generate_speech_summary_from_detections_strings strings) as [[text s]|e]; [|done].
  destruct (announce_with_text g t text s now) as [Hsnd Hfst].
  destruct (announce (with_text g t) text s now) as [g1 sp1].
  destruct (announce g text s now) as [g2 sp2] eqn:Hann.
  cbn [fst snd] in *. subst sp1. split; [done|].
  rewrite Hfst. destruct (commits _ _ _ _) eqn:Hc; [done|].
  pose proof (announce_suppressed g text s now Hc) as Hsame. rewrite Hann in Hsame.
  cbn [fst] in Hsame. by subst g2.
Qed.

(** X6. Pausing and resuming keeps the announcement history: after two
    toggles of an active server the text to repeat is "Detection Resumed.",
    but process_image_route gives every request the response it would have
    given without the toggles and leaves the same semantic set and time. *)
Theorem resume_keeps_history :
  forall g req now,
    detection_active g = true ->
    let g2 := fst (toggle_detection (fst (toggle_detection g))) in
    detection_active g2 = true
    /\ get_last_announcement_text_route g2 = Some "Detection Resumed."
    /\ snd (process_image_route g2 req now) = snd (process_image_route g req now)
    /\ last_semantic_summary_set (fst (process_image_route g2 req now))
       = last_semantic_summary_set (fst (process_image_route g req now))
    /\ last_announcement_text_generation_time (fst (process_image_route g2 req now))
       = last_announcement_text_generation_time (fst (process_image_route g req now)).
Proof.
  intros g req now Hactive g2.
  assert (Hg2 : g2 = with_text g "Detection Resumed.").
  { unfold g2, toggle_detection, with_text, set_detection. cbn. by rewrite Hactive. }
  rewrite Hg2. split; [done|]. split; [done|]. apply route_with_text.
Qed.

Lemma resume_keeps_history_witness :
  snd (process_image_route (fst (toggle_detection (fst (toggle_detection dog_announced))))
         {| upload := Readable sample_frame; draw_boxes := false; encodes := true |}
         (inject_Z 200))
  = snd (process_image_route dog_announced
           {| upload := Readable sample_frame; draw_boxes := false; encodes := true |}
           (inject_Z 200)).
Proof.
  apply (resume_keeps_history dog_announced
           {| upload := Readable sample_frame; draw_boxes := false; encodes := true |}
           (inject_Z 200)).
  reflexivity.
Defined.


(** X8. With scene-clear announcements switched off through the settings
    route, no response of process_image_route carries "Scene clear." and the
    text to repeat does not become "Scene clear."; an invalid payload is
    refused and changes nothing. *)
Theorem scene_clear_switched_off :
  forall g req now,
    let g0 := fst (setting_announce_scene_clear_route g (SettingPost (Some (JBool false)))) in
    snd (setting_announce_scene_clear_route g0 SettingGet) = SettingValue false
    /\ speech_output_of (snd (process_image_route g0 req now)) <> Some "Scene clear."
    /\ (last_generated_speech_text (fst (process_image_route g0 req now)) = "Scene clear." ->
        last_generated_speech_text g = "Scene clear.")
    /\ setting_announce_scene_clear_route g (SettingPost (Some JNotBool)) = (g, SettingInvalid)
    /\ setting_announce_scene_clear_route g (SettingPost None) = (g, SettingInvalid).
Proof.
  intros g req now g0.
  assert (Hoff : announce_scene_clear g0 = false) by done.
  assert (Htext : last_generated_speech_text g0 = last_generated_speech_text g) by done.
  clearbody g0.
  split; [by rewrite <- Hoff|]. split; [|split; [|done]].
  - destruct (route_cases g0 req now)
      as [(_ & Hother & _)|(strings & json & text & s & _ & Hgen & ->)]; [done|].
    cbn [snd]. destruct (draw_boxes req && encodes req); [done|].
    cbn [speech_output_of]. rewrite announce_speech.
    pose proof (candidate_cases g0 strings text s Hgen) as Hcand.
    destruct (speech_for_this_response g0 text) as [candidate|]; [|done].
    intros [= ->]. destruct Hcand as [(_ & Hsc & _)|(_ & Hon & _)]; [done|congruence].
  - rewrite <- Htext.
    destruct (route_cases g0 req now)
      as [(-> & _)|(strings & json & text & s & _ & Hgen & ->)]; [done|].
    cbn [fst].
    destruct (announce_cases g0 text s now) as [(_ & _ & candidate & Hsp & ->)|[_ ->]];
      [|done].
    pose proof (candidate_cases g0 strings text s Hgen) as Hcand. rewrite Hsp in Hcand.
    simpl. intros ->. destruct Hcand as [(_ & Hsc & _)|(_ & Hon & _)]; [done|congruence].
Qed.

(** X9. The response of process_image_route does not depend on the clock,
    nor therefore on the cooldown: a candidate that is not committed is
    still handed to the caller as speech_output. *)
Theorem response_ignores_clock :
  forall g req now now',
    snd (process_image_route g req now) = snd (process_image_route g req now').
Proof.
  intros g req now now'. unfold process_image_route.
  destruct (detection_active g); cbn [negb]; [|done].
  destruct (upload req) as [| | |frame]; try done.
  destruct (onnx_session g); cbn [negb]; [|done].
  destruct (perform_inference_and_postprocess g frame _ _) as [strings json].
  destruct (generate_speech_summary_from_detections_strings strings) as [[text s]|e]; [|done].
  pose proof (announce_speech g text s now) as H1.
  pose proof (announce_speech g text s now') as H2.
  destruct (announce g text s now), (announce g text s now'). cbn [snd] in *. by subst.
Qed.

(** X10. A change of counts alone is never announced: once a summary with
    semantic set [s] is committed, a later frame whose summary has another
    wording but the same semantic set leaves the globals as they are, at
    whatever time, though its text is what the response carries. *)
Theorem same_set_not_announced_again :
  forall g items items' text text' s now now',
    generate_speech_summary_from_detections_strings items = Return (Some text, s) ->
    generate_speech_summary_from_detections_strings items' = Return (Some text', s) ->
    commits g (speech_for_this_response g (Some text)) s now = true ->
    let g1 := fst (announce g (Some text) s now) in
    last_generated_speech_text g1 = text
    /\ announce g1 (Some text') s now' = (g1, Some text').
Proof.
  intros g items items' text text' s now now' Hgen Hgen' Hc g1.
  destruct (summary_text_facts _ _ _ Hgen) as (_ & _ & Hne & Hsc & Hs & _).
  destruct (summary_text_facts _ _ _ Hgen') as (_ & _ & Hne' & Hsc' & _ & _).
  destruct (summary_candidate g text s Hne Hsc) as [Hsp _].
  destruct (announce_committed g (Some text) s now Hc) as (candidate & Hcand & Hg1).
  rewrite Hsp in Hcand. injection Hcand as <-.
  apply String.eqb_neq in Hsc as Hsc_b. rewrite Hsc_b in Hg1.
  fold g1 in Hg1. split; [by rewrite Hg1|].
  destruct (summary_candidate g1 text' s Hne' Hsc') as [Hsp' Hmk'].
  unfold announce, commits. rewrite Hsp', Hmk'.
  assert (Hlast : last_semantic_summary_set g1 = s) by (by rewrite Hg1).
  rewrite Hlast, bool_decide_eq_true_2 by done.
  apply nonempty_true in Hs. by rewrite Hs.
Qed.

Lemma same_set_not_announced_again_witness :
  let g1 := fst (announce dog_announced (Some "in front of you, there's a cat.")
                   {[ ("cat", "front") ]} (inject_Z 200)) in
  last_generated_speech_text g1 = "in front of you, there's a cat."
  /\ announce g1 (Some "in front of you, there's two cats.") {[ ("cat", "front") ]}
       (inject_Z 900)
     = (g1, Some "in front of you, there's two cats.").
Proof.
  apply (same_set_not_announced_again dog_announced
           ["cat (front) [0.90]"] ["cat (front) [0.90]"; "cat (front) [0.80]"]).
  - by_evaluation.
  - by_evaluation.
  - vm_compute. reflexivity.
Defined.


Lemma scene_clear_switched_off_witness :
  speech_output_of
    (snd (process_image_route
            (fst (setting_announce_scene_clear_route dog_announced
                    (SettingPost (Some (JBool false)))))
            {| upload := Readable failing_frame; draw_boxes := false; encodes := true |}
            (inject_Z 200)))
  <> Some "Scene clear.".
Proof.
  exact (proj1 (proj2 (scene_clear_switched_off dog_announced
           {| upload := Readable failing_frame; draw_boxes := false; encodes := true |}
           (inject_Z 200)))).
Defined.

(** ** The decoder *)

Lemma argmax_from_spec seen l best_i best :
  seen !! best_i = Some best ->
  Forall (fun x => (x <= best)%Q) seen ->
  (forall j x, (j < best_i)%nat -> seen !! j = Some x -> (x < best)%Q) ->
  let '(k, m) := argmax_from best_i best (List.length seen) l in
  (seen ++ l)%list !! k = Some m
  /\ Forall (fun x => (x <= m)%Q) (seen ++ l)%list
  /\ (forall j x, (j < k)%nat -> (seen ++ l)%list !! j = Some x -> (x < m)%Q).
Proof.
  revert seen best_i best. induction l as [|y l IH]; intros seen best_i best Hbest Hall Hfirst.
  - simpl. rewrite List.app_nil_r. done.
  - cbn [argmax_from].
    replace (seen ++ y :: l)%list with ((seen ++ [y]) ++ l)%list
      by (by rewrite <- List.app_assoc).
    assert (Hlen : List.length (seen ++ [y])%list = S (List.length seen))
      by (rewrite List.length_app; simpl; lia).
    destruct (Qltb best y) eqn:Hcmp.
    + apply Qltb_lt in Hcmp.
      pose proof (IH (seen ++ [y])%list (List.length seen) y) as IH'.
      rewrite Hlen in IH'. apply IH'.
      * rewrite lookup_app_r by done. by rewrite Nat.sub_diag.
      * apply Forall_app. split; [|repeat constructor; lra].
        eapply List.Forall_impl; [|exact Hall]. intros x Hx. simpl in Hx. lra.
      * intros j x Hj Hx. rewrite lookup_app_l in Hx by done.
        assert (Hxb : (x <= best)%Q).
        { rewrite List.Forall_forall in Hall. apply Hall, list_elem_of_In.
          by eapply list_elem_of_lookup_2. }
        lra.
    + apply Qltb_ge in Hcmp.
      pose proof (IH (seen ++ [y])%list best_i best) as IH'.
      rewrite Hlen in IH'. apply IH'.
      * by apply lookup_app_l_Some.
      * apply Forall_app. split; [done|by repeat constructor].
      * intros j x Hj Hx. apply (Hfirst j x Hj).
        rewrite lookup_app_l in Hx; [done|]. apply lookup_lt_Some in Hbest. lia.
Qed.

Lemma argmax_spec l k m :
  argmax l = Return (k, m) ->
  l !! k = Some m
  /\ Forall (fun x => (x <= m)%Q) l
  /\ (forall j x, (j < k)%nat -> l !! j = Some x -> (x < m)%Q).
Proof.
  destruct l as [|x l]; [done|]. cbn [argmax]. intros [= Hk].
  pose proof (argmax_from_spec [x] l 0%nat x eq_refl) as Hspec.
  cbn [List.length] in Hspec. rewrite Hk in Hspec. apply Hspec.
  - repeat constructor. lra.
  - intros j y Hj. lia.
Qed.

Lemma decode_row_spec t num_cls prop c :
  decode_row t num_cls prop = Return (Some c) ->
  (t < cand_conf c)%Q /\ decoded_from num_cls prop c.
Proof.
  intros Hrow. pose proof (decode_row_live _ _ _ _ Hrow) as Hlive. apply Qltb_lt in Hlive.
  split; [done|]. unfold decode_row in Hrow.
  destruct (_ <? _)%nat eqn:Hshort; [done|]. apply Nat.ltb_ge in Hshort.
  destruct (argmax _) as [[c_id m_s]|e] eqn:Hmax; cbn [bind] in Hrow; [|done].
  destruct (Qltb t m_s); [|done].
  destruct (prop_box prop) as [|cx [|cy [|w [|h [|? ?]]]]] eqn:Hbox; try done.
  injection Hrow as <-.
  apply argmax_spec in Hmax as (Hk & Hall & Hfirst).
  unfold decoded_from, class_scores. cbn [cand_box cand_conf cand_cls].
  split; [done|]. split; [by eexists _, _, _, _|]. split; [|done].
  apply lookup_lt_Some in Hk. rewrite List.length_firstn in Hk. lia.
Qed.

Lemma decode_sound t num_cls proposals cands :
  decode t num_cls proposals = Return cands ->
  Forall (fun c => (t < cand_conf c)%Q
                   /\ exists prop, In prop proposals /\ decoded_from num_cls prop c) cands.
Proof.
  revert cands. induction proposals as [|prop rest IH]; intros cands.
  - intros [= <-]. constructor.
  - cbn [decode]. destruct (decode_row t num_cls prop) as [c|e] eqn:Hrow; [|done].
    cbn [bind]. destruct (decode t num_cls rest) as [cs|e]; [|done]. cbn [bind].
    intros [= <-].
    assert (Hrest : Forall (fun c => (t < cand_conf c)%Q
                     /\ exists prop0, In prop0 (prop :: rest) /\ decoded_from num_cls prop0 c) cs).
    { eapply List.Forall_impl; [|exact (IH cs eq_refl)].
      intros c' [Hc (p & Hp & Hd)]. split; [done|]. exists p. split; [by right|done]. }
    destruct c as [c|]; [|done]. constructor; [|done].
    apply decode_row_spec in Hrow as [Hc Hd]. split; [done|]. exists prop. split; [by left|done].
Qed.

(** X11. Every candidate the decoder appends comes from a proposal row
    long enough for the class table; its confidence exceeds the threshold
    and is the largest class score of the row, its class is the first
    position of that score and is a valid index of the class table. *)
Theorem decoded_candidates_sound :
  forall t num_cls proposals cands,
    decode t num_cls proposals = Return cands ->
    Forall (fun c => (t < cand_conf c)%Q
                     /\ exists prop, In prop proposals /\ decoded_from num_cls prop c) cands.
Proof. exact decode_sound. Qed.

Lemma decoded_candidates_sound_witness :
  Forall (fun c => (CONF_THRESHOLD < cand_conf c)%Q
                   /\ exists prop, In prop sample_proposals /\ decoded_from 2 prop c)
    [ {| cand_box := (Finite (inject_Z 100), Finite (inject_Z 100),
                      Finite (inject_Z 50), Finite (inject_Z 50));
         cand_conf := Qmake 9 10; cand_cls := 0 |};
      {| cand_box := (Finite (inject_Z 102), Finite (inject_Z 101),
                      Finite (inject_Z 50), Finite (inject_Z 50));
         cand_conf := Qmake 5 10; cand_cls := 0 |};
      {| cand_box := (Finite (inject_Z 400), Finite (inject_Z 300),
                      Finite (inject_Z 80), Finite (inject_Z 60));
         cand_conf := Qmake 55 100; cand_cls := 1 |} ].
Proof.
  apply (decoded_candidates_sound CONF_THRESHOLD 2 sample_proposals).
  vm_compute. reflexivity.
Defined.

(** ** The letterbox geometry *)







(** ** The pipeline's report *)

Lemma decode_row_empty_table t prop :
  (4 <= prop_length prop)%nat -> decode_row t 0 prop = Raise ValueError.
Proof.
  intros Hlen. unfold decode_row.
  assert (Hlong : (prop_length prop <? 4 + 0)%nat = false) by (apply Nat.ltb_ge; lia).
  by rewrite Hlong.
Qed.

Lemma decode_row_returns t num_cls prop :
  (0 < num_cls)%nat -> well_formed_row prop ->
  exists c, decode_row t num_cls prop = Return c.
Proof.
  intros Hn [Hbox Hscores]. unfold decode_row.
  destruct (_ <? _)%nat eqn:Hshort; [by eexists|]. apply Nat.ltb_ge in Hshort.
  unfold prop_length in Hshort.
  destruct (prop_scores prop) as [|x xs] eqn:Hs.
  { simpl in Hshort. lia. }
  destruct num_cls as [|n]; [lia|]. cbn [firstn argmax bind].
  destruct (argmax_from 0 x 1 (firstn n xs)) as [c_id m_s]. destruct (Qltb t m_s); [|by eexists].
  destruct (prop_box prop) as [|cx [|cy [|w [|h [|? ?]]]]]; by eexists.
Qed.

Lemma decode_returns t num_cls proposals :
  (0 < num_cls)%nat -> Forall well_formed_row proposals ->
  exists cands, decode t num_cls proposals = Return cands.
Proof.
  intros Hn Hrows. induction Hrows as [|prop rest Hprop _ [cs IH]]; [by eexists|].
  cbn [decode]. destruct (decode_row_returns t num_cls prop Hn Hprop) as [c ->].
  rewrite IH. cbn [bind]. by eexists.
Qed.

Lemma decode_empty_table t proposals :
  Exists (fun prop => (4 <= prop_length prop)%nat) proposals ->
  decode t 0 proposals = Raise ValueError.
Proof.
  induction 1 as [prop rest Hlong|prop rest _ IH]; cbn [decode].
  - by rewrite (decode_row_empty_table t prop Hlong).
  - destruct (decode_row t 0 prop) as [c|e] eqn:Hrow; cbn [bind].
    + by rewrite IH.
    + unfold decode_row in Hrow. destruct (_ <? _)%nat; [done|].
      cbn [firstn argmax bind] in Hrow. by injection Hrow as <-.
Qed.


(** X14. With an empty class table (no class names were loaded) every
    frame whose detector output has a row of at least four entries is
    reported as "Infer Error." with no detection; with a non-empty class
    table the decoding loop never raises on rows as the detector gives
    them. *)
Theorem empty_class_table_fails :
  (forall g frame width height scale dw dh proposals,
      class_names g = [] -> onnx_session g = true ->
      preprocess_frame_for_onnx (model_input_shape g) (vid_height frame) (vid_width frame)
      = Some (scale, dw, dh) ->
      Qeq_bool scale (inject_Z 0) = false ->
      run_outputs frame = Some proposals ->
      Exists (fun prop => (4 <= prop_length prop)%nat) proposals ->
      perform_inference_and_postprocess g frame width height = (["Infer Error."], []))
  /\ (forall t num_cls proposals,
        (0 < num_cls)%nat -> Forall well_formed_row proposals ->
        exists cands, decode t num_cls proposals = Return cands).
Proof.
  split; [|exact decode_returns].
  intros g frame w h scale dw dh proposals Hnames Hsession Hpre Hscale Hrun Hrow.
  unfold perform_inference_and_postprocess.
  rewrite Hpre, Hscale, Hsession, Hrun. cbn [negb].
  rewrite postprocess_kept, Hnames. simpl List.length. unfold candidate_lists.
  by rewrite (decode_empty_table _ _ Hrow).
Qed.

Lemma empty_class_table_fails_witness :
  perform_inference_and_postprocess (set_class_names dog_announced []) sample_frame 640 640
  = (["Infer Error."], []).
Proof.
  apply (proj1 empty_class_table_fails (set_class_names dog_announced []) sample_frame
           640%Z 640%Z (Qmake 640 640) 0%Z 0%Z sample_proposals).
  - reflexivity.
  - reflexivity.
  - vm_compute. reflexivity.
  - reflexivity.
  - reflexivity.
  - constructor. unfold prop_length. simpl. lia.
Defined.

Lemma hundredths_above x :
  (CONF_THRESHOLD < x)%Q -> (37 <= hundredths x)%Z.
Proof.
  unfold hundredths, round_half_even, CONF_THRESHOLD, Qlt.
  destruct x as [n d]. simpl. intros Hlt.
  set (N := (n * 100)%Z). set (D := Zpos (d * 1)).
  assert (HD : (0 < D)%Z) by (unfold D; lia).
  assert (HN : (37 * D < N)%Z) by (unfold N, D; lia).
  assert (Hfl : (37 <= N / D)%Z) by (apply Z.div_le_lower_bound; lia).
  repeat case_match; lia.
Qed.

Lemma remap_fields names scale dw dh w h c d :
  remap names scale dw dh w h c = Some d ->
  (exists c_n, In c_n names /\ class_name d = short_name c_n)
  /\ score d = cand_conf c
  /\ In (direction d) ["left"; "front"; "right"].
Proof.
  unfold remap. destruct (_ <=? _)%nat eqn:Hcls; [done|]. apply Nat.leb_gt in Hcls.
  destruct (clamped_corners _ _ _ _ _ _) as [[[x1c y1c] x2c] y2c].
  destruct (_ && _); [|done]. intros [= <-]. simpl. split; [|split; [done|]].
  - eexists. split; [|done]. by apply List.nth_In.
  - unfold direction_of. repeat case_match; auto.
Qed.

(** X15. Every entry of detections_json names a class of the class table
    (its text before the first comma), has one of the directions left,
    front, right, and a score with two decimals that is at least the
    detection threshold 0.37. *)
Theorem reported_detections_sound :
  forall g frame width height d,
    In d (snd (perform_inference_and_postprocess g frame width height)) ->
    (exists c_n, In c_n (class_names g) /\ class_name d = short_name c_n)
    /\ In (direction d) ["left"; "front"; "right"]
    /\ (CONF_THRESHOLD <= score d)%Q
    /\ exists k, score d = Qmake k 100.
Proof.
  intros g frame w h d. unfold perform_inference_and_postprocess.
  destruct (preprocess_frame_for_onnx _ _ _) as [[[scale dw] dh]|]; [|done].
  destruct (Qeq_bool _ _); [done|]. destruct (negb _); [done|].
  destruct (run_outputs frame) as [proposals|]; [|done].
  rewrite postprocess_kept.
  destruct (candidate_lists _ _ _) as [[b_m cv_b]|e] eqn:Hdec; [|done].
  cbv zeta. destruct (is_empty _); [done|]. cbn [snd].
  intros (d' & <- & Hin)%List.in_map_iff.
  apply list_elem_of_In, list_elem_of_omap in Hin as (c & Hc & Hremap).
  apply remap_fields in Hremap as (Hname & Hscore & Hdir).
  assert (Hconf : (CONF_THRESHOLD < cand_conf c)%Q).
  { pose proof (candidate_lists_live _ _ _ _ _ Hdec) as Hlive.
    apply (suppress_Forall finite_cv_box cand_conf NMS_THRESHOLD CONF_THRESHOLD) in Hlive.
    rewrite List.Forall_forall in Hlive. apply Qltb_lt, Hlive. by apply list_elem_of_In. }
  simpl. split; [done|]. split; [done|]. rewrite Hscore. split; [|by eexists].
  pose proof (hundredths_above _ Hconf). unfold round_2f, CONF_THRESHOLD, Qle. simpl. lia.
Qed.

Lemma reported_detections_sound_witness :
  (exists c_n, In c_n (class_names dog_announced) /\ "cat" = short_name c_n)
  /\ In "left" ["left"; "front"; "right"]
  /\ (CONF_THRESHOLD <= Qmake 90 100)%Q
  /\ exists k, Qmake 90 100 = Qmake k 100.
Proof.
  apply (reported_detections_sound dog_announced sample_frame 640%Z 640%Z
           {| class_name := "cat"; score := Qmake 90 100; direction := "left";
              bbox := (75, 75, 125, 125)%Z |}).
  vm_compute. left. reflexivity.
Defined.

(** ** Detection strings: written by the pipeline, read by the summariser *)

Lemma of_uint_acc_value d acc :
  Zpos (Pos.of_uint_acc d acc) = uint_value d (Zpos acc).
Proof.
  revert acc. induction d; intros acc; cbn [Pos.of_uint_acc uint_value];
    [done | rewrite IHd; f_equal; lia ..].
Qed.

Lemma of_uint_value d : Z.of_uint d = uint_value d 0.
Proof.
  unfold Z.of_uint. induction d; cbn [Pos.of_uint uint_value];
    [done | exact IHd | cbn [Z.of_N]; rewrite of_uint_acc_value; f_equal ..].
Qed.

Ltac read_digit :=
  match goal with
  | |- context [Float.is_digit (Ascii ?a ?b ?c ?d ?e ?f ?g ?h)] =>
      change (Float.is_digit (Ascii a b c d e f g h)) with true;
      let v := eval vm_compute in (Float.digit_value (Ascii a b c d e f g h)) in
      change (Float.digit_value (Ascii a b c d e f g h)) with v
  end.

Lemma digits_loop_numeral d rest acc n :
  Float.digits_loop (list_ascii_of_string (NilEmpty.string_of_uint d) ++ rest)%list acc n
  = Float.digits_loop rest (uint_value d acc) (Nat.add (Decimal.nb_digits d) n).
Proof.
  revert acc n. induction d; intros acc n;
    [done | cbn [NilEmpty.string_of_uint list_ascii_of_string List.app Float.digits_loop
                 uint_value Decimal.nb_digits];
            read_digit; cbn iota; rewrite IHd; f_equal; lia ..].
Qed.

(** The digits of a natural number, as [str] writes them. *)
Lemma to_int_numeral n :
  (0 <= n)%Z -> exists d, Z.to_int n = Decimal.Pos d /\ uint_value d 0 = n.
Proof.
  intros Hn. pose proof (DecimalZ.of_to n) as Hround.
  destruct n as [|p|p]; [| |lia].
  - by exists (Decimal.D0 Decimal.Nil).
  - exists (Pos.to_uint p). split; [done|].
    rewrite <- of_uint_value. exact Hround.
Qed.

Lemma digits_loop_end rest acc n :
  digits_end rest -> Float.digits_loop rest acc n = (acc, n, rest).
Proof. by intros [-> | [r ->]]. Qed.

Lemma str_int_digitpart n rest :
  (0 <= n)%Z -> digits_end rest ->
  exists k, Float.digitpart (list_ascii_of_string (Py.str_int n) ++ rest)%list
            = Some (n, k, rest).
Proof.
  intros Hn Hrest. destruct (to_int_numeral n Hn) as (d & Hd & Hval).
  unfold Py.str_int. rewrite Hd. cbn [NilZero.string_of_int].
  destruct d as [|d|d|d|d|d|d|d|d|d|d];
    [ exists 1%nat; cbn in Hval; subst n;
      cbn [NilZero.string_of_uint list_ascii_of_string List.app Float.digitpart];
      read_digit; cbn iota; cbn [Float.digits_loop]; read_digit; cbn iota;
      by rewrite digits_loop_end
    | eexists; cbn [NilZero.string_of_uint];
      match goal with
      | |- Float.digitpart ?l = _ =>
          transitivity (Some (Float.digits_loop l 0%Z 0%nat));
          [ cbn [NilEmpty.string_of_uint list_ascii_of_string List.app Float.digitpart];
            read_digit; reflexivity |]
      end;
      rewrite digits_loop_numeral, digits_loop_end, Hval by done; reflexivity .. ].
Qed.

Lemma str_int_first n :
  (0 <= n)%Z -> exists c s, Py.str_int n = String c s /\ Float.is_digit c = true.
Proof.
  intros Hn. destruct (to_int_numeral n Hn) as (d & Hd & _).
  unfold Py.str_int. rewrite Hd. cbn [NilZero.string_of_int].
  destruct d; cbn [NilZero.string_of_uint NilEmpty.string_of_uint]; by eauto.
Qed.

Lemma two_digits_cases (P : Z -> Prop) :
  (forall n : nat, (n < 100)%nat -> P (Z.of_nat n)) ->
  forall f, (0 <= f < 100)%Z -> P f.
Proof.
  intros H f Hf. rewrite <- (Z2Nat.id f) by lia. apply H. lia.
Qed.

Lemma two_digits_facts f :
  (0 <= f < 100)%Z ->
  Float.digitpart (list_ascii_of_string (two_digits f)) = Some (f, 2%nat, [])
  /\ Py.rstrip_by Py.isspace (two_digits f) = two_digits f
  /\ Py.rstrip_by (Ascii.eqb "]") (two_digits f ++ "]") = two_digits f
  /\ two_digits f <> EmptyString.
Proof.
  revert f. apply two_digits_cases. intros n Hn.
  do 100 (destruct n as [|n]; [by vm_compute|]). lia.
Qed.

Lemma list_ascii_app (a b : string) :
  list_ascii_of_string (a ++ b) = (list_ascii_of_string a ++ list_ascii_of_string b)%list.
Proof. induction a as [|c a IH]; [done|]. rewrite app_String. cbn. by rewrite IH. Qed.

Lemma digit_is_no_word c s :
  Float.is_digit c = true ->
  let word := Py.lower (String c s) in
  String.eqb word "inf" || String.eqb word "infinity" = false
  /\ String.eqb word "nan" = false.
Proof.
  intros Hc. cbn [Py.lower]. 
  assert (Hi : Ascii.eqb (Py.lower_char c) "i" = false /\ Ascii.eqb (Py.lower_char c) "n" = false).
  { destruct c as [[] [] [] [] [] [] [] []]; try discriminate Hc; by vm_compute. }
  destruct Hi as [Hi Hn]. cbn [String.eqb]. by rewrite Hi, Hn.
Qed.

(** [float()] on the digits of [":.2f"], without the sign. *)
Lemma absfloatvalue_2f h :
  (0 <= h)%Z ->
  Float.absfloatvalue
    (list_ascii_of_string (Py.str_int (h / 100) ++ "." ++ two_digits (h mod 100)))
  = Some (Finite (Qmake h 100)).
Proof.
  intros Hh.
  assert (Hip : (0 <= h / 100)%Z) by (apply Z.div_pos; lia).
  assert (Hfp : (0 <= h mod 100 < 100)%Z) by (apply Z.mod_pos_bound; lia).
  destruct (two_digits_facts _ Hfp) as (Hfrac & _).
  set (frac := list_ascii_of_string (two_digits (h mod 100))) in *.
  destruct (str_int_digitpart (h / 100) ("."%char :: frac) Hip) as [k Hint];
    [right; by eexists|].
  destruct (str_int_first _ Hip) as (c & s & Hs & Hc).
  destruct (digit_is_no_word c (s ++ "." ++ two_digits (h mod 100)) Hc) as [Hinf Hnan].
  unfold Float.absfloatvalue. rewrite string_of_list_ascii_of_string.
  set (text := Py.str_int (h / 100) ++ "." ++ two_digits (h mod 100)).
  assert (Hword : Py.lower text = Py.lower (String c (s ++ "." ++ two_digits (h mod 100))))
    by (unfold text; by rewrite Hs).
  cbv zeta in Hinf, Hnan |- *. rewrite Hword, Hinf, Hnan. unfold text.
  rewrite list_ascii_app. change (list_ascii_of_string ("." ++ ?t)) with ("."%char :: list_ascii_of_string t).
  fold frac. unfold Float.number. rewrite Hint, Hfrac. cbn [Float.exponent].
  do 2 f_equal. unfold Float.scale.
  change (0 - Z.of_nat 2)%Z with (-2)%Z. cbn [Z.leb Z.compare].
  change (Z.to_pos (10 ^ (- -2))) with 100%positive. f_equal.
  change (10 ^ Z.of_nat 2)%Z with 100%Z. rewrite (Z.div_mod h 100) at 3 by lia. lia.
Qed.

Lemma rstrip_by_app p (a b : string) :
  Py.rstrip_by p b = b -> b <> EmptyString -> Py.rstrip_by p (a ++ b) = a ++ b.
Proof.
  intros Hb Hne. induction a as [|c a IH]; [done|].
  rewrite app_String. cbn [Py.rstrip_by]. rewrite IH.
  destruct (a ++ b) eqn:Hab; [|done].
  destruct a; [by subst|done].
Qed.

Lemma hundredths_sign x :
  if Qltb x (inject_Z 0) then (hundredths x <= 0)%Z else (0 <= hundredths x)%Z.
Proof.
  destruct (Qltb x (inject_Z 0)) eqn:Hsign.
  - apply Qltb_lt in Hsign. revert Hsign.
    unfold hundredths, round_half_even, Qlt. destruct x as [n d]. simpl. intros Hlt.
    set (N := (n * 100)%Z). set (D := Zpos (d * 1)).
    assert (HD : (0 < D)%Z) by (unfold D; lia).
    assert (HN : (N < 0)%Z) by (unfold N; lia).
    assert (Hfl : (N / D < 0)%Z) by (apply Z.div_lt_upper_bound; lia).
    repeat case_match; lia.
  - apply Qltb_ge in Hsign. revert Hsign.
    unfold hundredths, round_half_even, Qle. destruct x as [n d]. simpl. intros Hle.
    set (N := (n * 100)%Z). set (D := Zpos (d * 1)).
    assert (HD : (0 < D)%Z) by (unfold D; lia).
    assert (HN : (0 <= N)%Z) by (unfold N; lia).
    assert (Hfl : (0 <= N / D)%Z) by (apply Z.div_pos; lia).
    repeat case_match; lia.
Qed.

Lemma format_2f_unfold x :
  format_2f x
  = (if Qltb x (inject_Z 0) then "-" else EmptyString)
    ++ Py.str_int (Z.abs (hundredths x) / 100) ++ "."
    ++ two_digits (Z.abs (hundredths x) mod 100).
Proof. reflexivity. Qed.

Lemma strip_2f c s f :
  Py.isspace c = false -> (0 <= f < 100)%Z ->
  Py.strip (String c s ++ "." ++ two_digits f) = String c s ++ "." ++ two_digits f.
Proof.
  intros Hc Hf. destruct (two_digits_facts f Hf) as (_ & Hr & _ & Hne).
  unfold Py.strip. rewrite app_String. cbn [Py.lstrip_by]. rewrite Hc.
  rewrite <- app_String, <- string_app_assoc. by apply rstrip_by_app.
Qed.

(** [float(f"{x:.2f}")] is [x] rounded to hundredths. *)
Lemma of_string_format_2f x :
  Float.of_string (format_2f x) = Return (Finite (round_2f x)).
Proof.
  rewrite format_2f_unfold. pose proof (hundredths_sign x) as Hsign.
  set (h := Z.abs (hundredths x)).
  assert (Hh : (0 <= h)%Z) by (unfold h; lia).
  assert (Hfp : (0 <= h mod 100 < 100)%Z) by (apply Z.mod_pos_bound; lia).
  assert (Hip : (0 <= h / 100)%Z) by (apply Z.div_pos; lia).
  pose proof (absfloatvalue_2f h Hh) as Habs.
  destruct (str_int_first _ Hip) as (c & s & Hs & Hc).
  unfold Float.of_string, round_2f. revert Hsign.
  destruct (Qltb x (inject_Z 0)); intros Hsign.
  - change ("-" ++ ?a ++ ?b) with (String "-" a ++ b).
    rewrite (strip_2f "-" (Py.str_int (h / 100)) (h mod 100)) by done.
    rewrite app_String. cbn [list_ascii_of_string]. rewrite Habs.
    cbn [option_map Float.negate]. do 2 f_equal. unfold Qopp. cbn [Qnum Qden]. f_equal. unfold h. lia.
  - change (EmptyString ++ ?t) with t.
    assert (Hsp : Py.isspace c = false).
    { destruct c as [[] [] [] [] [] [] [] []]; try discriminate Hc; by vm_compute. }
    rewrite Hs, (strip_2f c s (h mod 100)) by done.
    rewrite <- Hs.
    transitivity (match Float.absfloatvalue
        (list_ascii_of_string (Py.str_int (h / 100) ++ "." ++ two_digits (h mod 100))) with
      | Some x => Return x | None => Raise ValueError end).
    + rewrite Hs, app_String. cbn [list_ascii_of_string].
      destruct c as [[] [] [] [] [] [] [] []]; try discriminate Hc; reflexivity.
    + rewrite Habs. do 3 f_equal. unfold h. lia.
Qed.

(** X16. Writing a score with two decimals and reading the text back with
    float() gives the score rounded to hundredths, for every score: the
    sign, the integer digits and the two fraction digits are all read
    back. *)
Theorem two_decimals_round_trip :
  forall x, Float.of_string (format_2f x) = Return (Finite (round_2f x)).
Proof. exact of_string_format_2f. Qed.

Lemma split_once_unfold sep s :
  Py.split_once sep s
  = if String.prefix sep s then Return (EmptyString, Py.drop (String.length sep) s)
    else match s with
         | EmptyString => Raise ValueError
         | String c s' =>
             match Py.split_once sep s' with
             | Return (a, b) => Return (String c a, b)
             | Raise e => Raise e
             end
         end.
Proof. by destruct s. Qed.

Lemma drop_app (a b : string) : Py.drop (String.length a) (a ++ b) = b.
Proof. induction a as [|c a IH]; [by destruct b|]. by rewrite app_String. Qed.

Lemma contains_app_false sub (a s : string) :
  Py.contains sub (a ++ s) = false -> String.prefix sub s = false.
Proof.
  induction a as [|c a IH].
  - change (EmptyString ++ s) with s. destruct s; cbn [Py.contains]; by intros [? _]%orb_false_iff.
  - rewrite app_String. cbn [Py.contains]. intros [_ H]%orb_false_iff. by apply IH.
Qed.

(** [split(sep, 1)] cuts at a separator that does not occur earlier. *)
Lemma split_once_at sep (a b : string) :
  (forall a1 c a2, a = a1 ++ String c a2 ->
     String.prefix sep (String c a2 ++ sep ++ b) = false) ->
  Py.split_once sep (a ++ sep ++ b) = Return (a, b).
Proof.
  induction a as [|c a IH]; intros Hfree.
  - change (EmptyString ++ ?t) with t.
    by rewrite split_once_unfold, prefix_app, drop_app.
  - rewrite split_once_unfold, (Hfree EmptyString c a) by done.
    rewrite app_String, IH; [done|].
    intros a1 c' a2 ->. by apply (Hfree (String c a1)).
Qed.

Lemma prefix_empty s : String.prefix EmptyString s = true.
Proof. by destruct s. Qed.

Lemma split_name (name rest : string) :
  Py.contains " (" name = false ->
  Py.split_once " (" (name ++ " (" ++ rest) = Return (name, rest).
Proof.
  intros Hfree. apply split_once_at. intros a1 c a2 ->.
  apply contains_app_false in Hfree. revert Hfree.
  destruct a2 as [|c2 a2]; rewrite ?app_String; cbn [String.prefix];
    repeat (case_match; try done); subst; by rewrite ?prefix_empty.
Qed.

Lemma split_direction (direction rest : string) :
  Py.contains ") [" direction = false ->
  Py.split_once ") [" (direction ++ ") [" ++ rest) = Return (direction, rest).
Proof.
  intros Hfree. apply split_once_at. intros a1 c a2 ->.
  apply contains_app_false in Hfree. revert Hfree.
  destruct a2 as [|c2 [|c3 a2]]; rewrite ?app_String; cbn [String.prefix];
    repeat (case_match; try done); subst; by rewrite ?prefix_empty.
Qed.

Lemma rstrip_by_lead p (a b : string) :
  Py.rstrip_by p b <> EmptyString -> Py.rstrip_by p (a ++ b) = a ++ Py.rstrip_by p b.
Proof.
  intros Hne. induction a as [|c a IH]; [done|].
  rewrite !app_String. cbn [Py.rstrip_by]. rewrite IH.
  destruct (a ++ Py.rstrip_by p b) eqn:Hab; [|done].
  destruct a; [done|by rewrite app_String in Hab].
Qed.

Lemma rstrip_bracket_2f x : Py.rstrip_char "]" (format_2f x ++ "]") = format_2f x.
Proof.
  rewrite format_2f_unfold. set (h := Z.abs (hundredths x)).
  assert (Hfp : (0 <= h mod 100 < 100)%Z) by (apply Z.mod_pos_bound; lia).
  destruct (two_digits_facts _ Hfp) as (_ & _ & Hr & Hne).
  unfold Py.rstrip_char. rewrite !string_app_assoc.
  rewrite <- (string_app_assoc _ "." (two_digits (h mod 100) ++ "]")).
  rewrite <- (string_app_assoc _ (_ ++ ".") (two_digits (h mod 100) ++ "]")).
  rewrite rstrip_by_lead; rewrite Hr; [|done].
  by rewrite !string_app_assoc.
Qed.

(** A detection string is read back as it was written. *)
Lemma parse_info_string d :
  Py.contains " (" (class_name d) = false ->
  Py.contains ") [" (direction d) = false ->
  parse_item (info_string d)
  = Return (class_name d, direction d, Finite (round_2f (score d))).
Proof.
  intros Hname Hdir. unfold parse_item, info_string.
  rewrite split_name by done. cbn [bind snd fst].
  rewrite split_direction by done. cbn [bind snd fst].
  by rewrite rstrip_bracket_2f, of_string_format_2f.
Qed.

(** X17. The summariser reads a detection string back as the pipeline
    wrote it: when the class name does not contain " (" and the direction
    does not contain ") [", parsing "name (direction) [score]" returns the
    name, the direction and the score rounded to hundredths. *)
Theorem detection_string_round_trip :
  forall d,
    Py.contains " (" (class_name d) = false ->
    Py.contains ") [" (direction d) = false ->
    parse_item (info_string d)
    = Return (class_name d, direction d, Finite (round_2f (score d))).
Proof. exact parse_info_string. Qed.

Lemma detection_string_round_trip_witness :
  parse_item "traffic light (front) [0.38]"
  = Return ("traffic light", "front", Finite (Qmake 38 100)).
Proof.
  apply (detection_string_round_trip
           {| class_name := "traffic light"; score := Qmake 3751 10000;
              direction := "front"; bbox := (0, 0, 1, 1)%Z |}); reflexivity.
Defined.





